(** * segmented-map: a lock-striped map and its segment router

    A shallow embedding of the Go packages [inthash] (src/inthash/hash.go)
    and [segmentedmap] (src/map.go), followed by the properties of the
    specification that they satisfy or break.

    Conventions of the embedding.
    - Go integers are [Z]; every conversion to a fixed width writes its
      wrap-around out ([uint16], [uint32], [uint64] below).  [int] is the
      64-bit [int] of the platforms the tests run on.
    - A byte is a [Z] below 256, a byte slice a [list Z], a Go string a
      [string] (a sequence of 8-bit characters).
    - A run-time panic is a value: every function that can panic returns a
      [result].
    - Floating-point keys are carried by their IEEE-754 bit pattern, and
      the conversions of the router are computed on it. *)

From Stdlib Require Import ZArith String Ascii List Lia Bool.
From Stdlib Require Import Floats.SpecFloat.
From stdpp Require Import base tactics option list gmap.
Import ListNotations.

Local Open Scope Z_scope.

(** ** Results and panics *)

(** The kinds [reflect] tells apart, as far as the router looks at them. *)
Inductive Kind : Type :=
  | KindString
  | KindInt | KindInt8 | KindInt16 | KindInt32 | KindInt64
  | KindUint | KindUint8 | KindUint16 | KindUint32 | KindUint64
  | KindFloat32 | KindFloat64
  | KindOther.

Inductive panic : Type :=
  | ValueError (method : string) (kind : Kind)
      (* reflect: call of <method> on <kind> Value *)
  | NonImplementedType
      (* panic("non implemented type") *)
  | IndexOutOfRange (index : Z) (len : nat)
      (* runtime error: index out of range [index] with length len *)
  | MakesliceLenOutOfRange.
      (* runtime error: makeslice: len out of range *)

Inductive result (A : Type) : Type :=
  | Ok (a : A)
  | Panic (p : panic).
Arguments Ok {A} a.
Arguments Panic {A} p.

Definition bind {A B : Type} (r : result A) (k : A -> result B) : result B :=
  match r with
  | Ok a => k a
  | Panic p => Panic p
  end.

Notation "x <- e ;; k" := (bind e (fun x => k))
  (at level 20, e at level 99, k at level 200, only parsing).

(** ** Fixed-width integers *)

Definition uint8 (x : Z) : Z := x mod 2 ^ 8.
Definition uint16 (x : Z) : Z := x mod 2 ^ 16.
Definition uint32 (x : Z) : Z := x mod 2 ^ 32.
Definition uint64 (x : Z) : Z := x mod 2 ^ 64.

(** ** encoding/binary: LittleEndian *)

Module LittleEndian.

Definition PutUint16 (v : Z) : list Z :=
  [uint8 v; uint8 (Z.shiftr v 8)].

Definition PutUint32 (v : Z) : list Z :=
  [uint8 v; uint8 (Z.shiftr v 8); uint8 (Z.shiftr v 16);
   uint8 (Z.shiftr v 24)].

Definition PutUint64 (v : Z) : list Z :=
  [uint8 v; uint8 (Z.shiftr v 8); uint8 (Z.shiftr v 16);
   uint8 (Z.shiftr v 24); uint8 (Z.shiftr v 32); uint8 (Z.shiftr v 40);
   uint8 (Z.shiftr v 48); uint8 (Z.shiftr v 56)].

End LittleEndian.

(** ** hash/fnv: the 32-bit FNV-1 hash *)

Module Fnv.

Definition offset32 : Z := 2166136261.
Definition prime32 : Z := 16777619.

(** The hasher is its running 32-bit sum. *)
Definition sum32 : Type := Z.

Definition New32 : sum32 := offset32.

(** One step of [Write]: [hash *= prime32; hash ^= uint32(c)]. *)
Definition step (hash : sum32) (c : Z) : sum32 :=
  Z.lxor (uint32 (hash * prime32)) c.

Definition Write (s : sum32) (data : list Z) : sum32 :=
  fold_left step data s.

Definition Sum32 (s : sum32) : Z := s.

End Fnv.

(** ** IEEE-754 values on their bit patterns

    [mbits] is the width of the mantissa field and [ebits] that of the
    exponent field: 23 and 8 for [float32], 52 and 11 for [float64]. *)

Module Float.

Definition bias (ebits : Z) : Z := 2 ^ (ebits - 1) - 1.

Definition sign_of (mbits ebits x : Z) : bool := Z.testbit x (mbits + ebits).
Definition exp_of (mbits ebits x : Z) : Z := (x / 2 ^ mbits) mod 2 ^ ebits.
Definition mant_of (mbits x : Z) : Z := x mod 2 ^ mbits.

Definition frombits (mbits ebits x : Z) : spec_float :=
  let s := sign_of mbits ebits x in
  let e := exp_of mbits ebits x in
  let m := mant_of mbits x in
  if e =? 0 then
    match m with
    | Zpos p => S754_finite s p (1 - bias ebits - mbits)
    | _ => S754_zero s
    end
  else if e =? 2 ^ ebits - 1 then
    if m =? 0 then S754_infinity s else S754_nan
  else
    match m + 2 ^ mbits with
    | Zpos p => S754_finite s p (e - bias ebits - mbits)
    | _ => S754_zero s
    end.

Definition sign_bit (mbits ebits : Z) (s : bool) : Z :=
  if s then 2 ^ (mbits + ebits) else 0.

Definition quiet_nan (mbits ebits : Z) : Z :=
  (2 ^ ebits - 1) * 2 ^ mbits + 2 ^ (mbits - 1).

(** The bit pattern of a value of the format (NaN is given apart, a
    [spec_float] has no payload). *)
Definition bits (mbits ebits : Z) (f : spec_float) : Z :=
  match f with
  | S754_zero s => sign_bit mbits ebits s
  | S754_infinity s => sign_bit mbits ebits s + (2 ^ ebits - 1) * 2 ^ mbits
  | S754_nan => quiet_nan mbits ebits
  | S754_finite s m e =>
      if Zpos (digits2_pos m) =? mbits + 1 then
        sign_bit mbits ebits s
        + (e + bias ebits + mbits) * 2 ^ mbits + (Zpos m - 2 ^ mbits)
      else
        sign_bit mbits ebits s + Zpos m
  end.

(** [float32(x)] for a [float64] [x]: round to nearest, ties to even; a
    NaN keeps its sign and the top of its payload and becomes quiet. *)
Definition float32_of_float64 (x : Z) : Z :=
  match frombits 52 11 x with
  | S754_nan =>
      sign_bit 23 8 (sign_of 52 11 x)
      + Z.lor (quiet_nan 23 8) (mant_of 52 x / 2 ^ 29)
  | S754_finite s m e => bits 23 8 (binary_round 24 128 s m e)
  | f => bits 23 8 f
  end.

(** [float64(x)] for a [float32] [x]: exact. *)
Definition float64_of_float32 (x : Z) : Z :=
  match frombits 23 8 x with
  | S754_nan =>
      sign_bit 52 11 (sign_of 23 8 x)
      + Z.lor (quiet_nan 52 11) (mant_of 23 x * 2 ^ 29)
  | S754_finite s m e => bits 52 11 (binary_round 53 1024 s m e)
  | f => bits 52 11 f
  end.

(** The integer part of a [float32], towards zero. *)
Definition trunc (x : Z) : option Z :=
  match frombits 23 8 x with
  | S754_zero _ => Some 0
  | S754_finite s m e =>
      let a := if 0 <=? e then Zpos m * 2 ^ e else Zpos m / 2 ^ (- e) in
      Some (if s then - a else a)
  | _ => None
  end.

(** [uint32(x)] for a [float32] [x].  Go leaves the result to the
    implementation when the integer part does not fit; the model takes
    what the amd64 compiler does there, a conversion to [int64] (which
    gives its lowest value, of low word 0, on what it cannot hold)
    followed by a truncation to 32 bits. *)
Definition uint32_of_float32 (x : Z) : Z :=
  match trunc x with
  | Some t => if (- 2 ^ 63 <=? t) && (t <? 2 ^ 63) then uint32 t else 0
  | None => 0
  end.

(** Go's [==] on two floats of one format. *)
Definition eqb (mbits ebits x y : Z) : bool :=
  SFeqb (frombits mbits ebits x) (frombits mbits ebits y).

End Float.

(** ** Package inthash *)

Module Inthash.

(** A key as [reflect] sees it: its kind and its value.  [KOther] stands
    for a value of any kind the router has no case for; the constraint
    [Hashable] keeps those out of [NewHash] and of the map, [New] takes
    them. *)
Inductive Key : Type :=
  | KString (s : string)
  | KInt (i : Z) | KInt8 (i : Z) | KInt16 (i : Z) | KInt32 (i : Z)
  | KInt64 (i : Z)
  | KUint (u : Z) | KUint8 (u : Z) | KUint16 (u : Z) | KUint32 (u : Z)
  | KUint64 (u : Z)
  | KFloat32 (bits : Z) | KFloat64 (bits : Z)
  | KOther.

(** [reflect.TypeOf(k).Kind()] *)
Definition KindOf (k : Key) : Kind :=
  match k with
  | KString _ => KindString
  | KInt _ => KindInt | KInt8 _ => KindInt8 | KInt16 _ => KindInt16
  | KInt32 _ => KindInt32 | KInt64 _ => KindInt64
  | KUint _ => KindUint | KUint8 _ => KindUint8 | KUint16 _ => KindUint16
  | KUint32 _ => KindUint32 | KUint64 _ => KindUint64
  | KFloat32 _ => KindFloat32 | KFloat64 _ => KindFloat64
  | KOther => KindOther
  end.

(** [reflect.ValueOf(k).String()]: never panics; on a value that is not
    a string it gives a description of its type. *)
Definition ValueString (k : Key) : string :=
  match k with
  | KString s => s
  | _ => "<T Value>"%string
  end.

(** [reflect.ValueOf(k).Int()]: panics unless the kind is Int, Int8,
    Int16, Int32 or Int64. *)
Definition ValueInt (k : Key) : result Z :=
  match k with
  | KInt i | KInt8 i | KInt16 i | KInt32 i | KInt64 i => Ok i
  | _ => Panic (ValueError "reflect.Value.Int" (KindOf k))
  end.

(** [reflect.ValueOf(k).Uint()]: panics unless the kind is unsigned. *)
Definition ValueUint (k : Key) : result Z :=
  match k with
  | KUint u | KUint8 u | KUint16 u | KUint32 u | KUint64 u => Ok u
  | _ => Panic (ValueError "reflect.Value.Uint" (KindOf k))
  end.

(** [reflect.ValueOf(k).Float()]: the value as a [float64]; panics
    unless the kind is Float32 or Float64. *)
Definition ValueFloat (k : Key) : result Z :=
  match k with
  | KFloat32 b => Ok (Float.float64_of_float32 b)
  | KFloat64 b => Ok b
  | _ => Panic (ValueError "reflect.Value.Float" (KindOf k))
  end.

Definition byte_of_ascii (c : ascii) : Z := Z.of_N (N_of_ascii c).

Definition StringToBytes (s : string) : list Z :=
  map byte_of_ascii (list_ascii_of_string s).

Record Hash : Type := mkHash {
  segments : Z;
  hmask : Z   (* the field [mask], a uint16 *)
}.

(** [math.Log2] of a positive [int] converted to [float64], truncated by
    the conversion to [uint16]: [math.Log2] goes through [Frexp], is
    exact on the powers of two and lies strictly between two integers
    elsewhere, which is [Z.log2] below 2^16; from 2^16 on both it and
    [Z.log2] are at least 16, and [mask] is then 65535 whatever the
    exact count of bits. *)
Definition log2_bits (size : Z) : Z := uint16 (Z.log2 size).

Definition mask (segments : Z) : Z :=
  let size := Z.max segments 1 in
  let bitCount := log2_bits size in
  uint16 (uint16 (Z.shiftl 1 bitCount) - 1).

Definition New (segments : Z) : Hash :=
  {| segments := segments; hmask := mask segments |}.

Definition NewHash (segments : Z) : Hash :=
  {| segments := segments; hmask := mask segments |}.

Definition Segments (s : Hash) : Z := segments s.

(** The bytes the switch of [Get] writes to the hasher for [k]. *)
Definition keyBytes (k : Key) : result (list Z) :=
  match KindOf k with
  | KindString => Ok (StringToBytes (ValueString k))
  | KindInt =>
      v <- ValueInt k ;; Ok (LittleEndian.PutUint32 (uint32 v))
  | KindInt8 =>
      v <- ValueInt k ;; Ok (LittleEndian.PutUint16 (uint16 v))
  | KindInt16 =>
      v <- ValueInt k ;; Ok (LittleEndian.PutUint16 (uint16 v))
  | KindInt32 =>
      v <- ValueInt k ;; Ok (LittleEndian.PutUint32 (uint32 v))
  | KindInt64 =>
      v <- ValueInt k ;; Ok (LittleEndian.PutUint64 (uint64 v))
  | KindUint =>
      v <- ValueInt k ;; Ok (LittleEndian.PutUint32 (uint32 v))
  | KindUint8 =>
      v <- ValueInt k ;; Ok (LittleEndian.PutUint16 (uint16 v))
  | KindUint16 =>
      v <- ValueInt k ;; Ok (LittleEndian.PutUint16 (uint16 v))
  | KindUint32 =>
      v <- ValueInt k ;; Ok (LittleEndian.PutUint32 (uint32 v))
  | KindUint64 =>
      v <- ValueUint k ;; Ok (LittleEndian.PutUint64 (uint64 v))
  | KindFloat32 | KindFloat64 =>
      x <- ValueFloat k ;;
      let f := uint32 (Float.float32_of_float64 x) in
      let e := Float.uint32_of_float32 (Float.float32_of_float64 x) in
      let i := uint32 (f + e) in
      Ok (LittleEndian.PutUint32 i)
  | KindOther => Panic NonImplementedType
  end.

(** [Get]: every case of the switch writes its bytes to a fresh hasher
    and takes [int(h.Sum32())]; the result is masked. *)
Definition Get (s : Hash) (k : Key) : result Z :=
  let h := Fnv.New32 in
  bytes <- keyBytes k ;;
  let b := Fnv.Sum32 (Fnv.Write h bytes) in
  let hash := Z.land b (hmask s) in
  Ok hash.

End Inthash.

(** ** Go's built-in map, keyed by [Key]

    A map is the list of its entries.  The order of the list is one of
    the orders in which [range] may visit them and nothing else: lookups,
    assignments and deletions compare keys with Go's [==], under which a
    floating-point NaN differs from itself (an entry stored under NaN is
    never found again, and every assignment under NaN adds an entry) and
    the two zeros are one key. *)

Module Gomap.
Import Inthash.

(** Go's [==] on two keys of one type. *)
Definition key_eqb (a b : Key) : bool :=
  match a, b with
  | KString s, KString t => String.eqb s t
  | KInt i, KInt j | KInt8 i, KInt8 j | KInt16 i, KInt16 j
  | KInt32 i, KInt32 j | KInt64 i, KInt64 j => i =? j
  | KUint u, KUint w | KUint8 u, KUint8 w | KUint16 u, KUint16 w
  | KUint32 u, KUint32 w | KUint64 u, KUint64 w => u =? w
  | KFloat32 x, KFloat32 y => Float.eqb 23 8 x y
  | KFloat64 x, KFloat64 y => Float.eqb 52 11 x y
  | KOther, KOther => true
  | _, _ => false
  end.

(** The keys that are a floating-point NaN. *)
Definition isNaN (k : Key) : bool :=
  match k with
  | KFloat32 x =>
      match Float.frombits 23 8 x with S754_nan => true | _ => false end
  | KFloat64 x =>
      match Float.frombits 52 11 x with S754_nan => true | _ => false end
  | _ => false
  end.

Definition t (V : Type) : Type := list (Key * V).

Section Ops.
Context {V : Type}.

(** [make(map[K]V, capacity)]: the capacity is a hint. *)
Definition make (capacity : Z) : t V := [].

(** [v, ok := m[k]] *)
Fixpoint lookup (m : t V) (k : Key) : option V :=
  match m with
  | [] => None
  | (k', v) :: m' => if key_eqb k' k then Some v else lookup m' k
  end.

(** [m[k] = v] *)
Fixpoint assign (m : t V) (k : Key) (v : V) : t V :=
  match m with
  | [] => [(k, v)]
  | (k', v') :: m' =>
      if key_eqb k' k then (k, v) :: m' else (k', v') :: assign m' k v
  end.

(** [delete(m, k)]: the entry under [k] goes.  There is one at most, as
    an assignment adds no entry under a key equal to one that is there. *)
Definition delete (m : t V) (k : Key) : t V :=
  List.filter (fun e => negb (key_eqb (fst e) k)) m.

(** [len(m)] *)
Definition len (m : t V) : Z := Z.of_nat (length m).

End Ops.

End Gomap.

(** ** Package segmentedmap *)

(** [zero[V]()]: the zero value of the value type. *)
Class Zero (V : Type) : Type := zero : V.

#[export] Instance Z_zero : Zero Z := 0.
#[export] Instance string_zero : Zero string := EmptyString.

Module Segmentedmap.
Import Inthash.

(** A [sync.RWMutex].  The embedding is sequential: a [Lock] or [RLock]
    on a free mutex followed by its release leaves it as it was, so all
    that remains of the four lock helpers is their indexing of the
    slice of mutexes. *)
Inductive RWMutex : Type := mkRWMutex.

(** [l[i]], with Go's bounds check. *)
Definition index {A : Type} (l : list A) (i : Z) : result A :=
  if i <? 0 then Panic (IndexOutOfRange i (length l))
  else match l !! Z.to_nat i with
       | Some x => Ok x
       | None => Panic (IndexOutOfRange i (length l))
       end.

(** [make([]T, n)] with every element set to [x]. *)
Definition makeSlice {A : Type} (n : Z) (x : A) : result (list A) :=
  if n <? 0 then Panic MakesliceLenOutOfRange
  else Ok (replicate (Z.to_nat n) x).

Section Map.
Context {V : Type} `{Zero V}.

Record Map : Type := mkMap {
  segment : list (Gomap.t V);
  mutex : list RWMutex;
  hash : Hash;
  segmented : bool
}.

(** [s.segment[h] = m] for an [h] already read. *)
Definition withSegment (s : Map) (h : Z) (m : Gomap.t V) : Map :=
  {| segment := <[Z.to_nat h := m]> (segment s);
     mutex := mutex s;
     hash := hash s;
     segmented := segmented s |}.

Definition rLock (s : Map) (i : Z) : result unit :=
  _ <- index (mutex s) i ;; Ok tt.
Definition rUnlock (s : Map) (i : Z) : result unit :=
  _ <- index (mutex s) i ;; Ok tt.
Definition lock (s : Map) (i : Z) : result unit :=
  _ <- index (mutex s) i ;; Ok tt.
Definition unlock (s : Map) (i : Z) : result unit :=
  _ <- index (mutex s) i ;; Ok tt.

(** The loop of the constructor gives every segment its own empty map
    and every slot its own mutex. *)
Definition NewSegmentedMap (segmentCount segmentCapacity : Z)
  : result Map :=
  let hash := NewHash segmentCount in
  let segmented := if Segments hash >? 1 then true else false in
  segments <- makeSlice segmentCount (Gomap.make segmentCapacity) ;;
  mutex <- makeSlice segmentCount mkRWMutex ;;
  Ok {| segment := segments;
        hash := hash;
        mutex := mutex;
        segmented := segmented |}.

Definition NewMap : result Map := NewSegmentedMap 1 1.

(** [Set] ([Set] alone is a sort of Rocq). *)
Definition Set_ (s : Map) (k : Key) (v : V) : result Map :=
  h <- Inthash.Get (hash s) k ;;
  _ <- lock s h ;;
  seg <- index (segment s) h ;;
  let s' := withSegment s h (Gomap.assign seg k v) in
  _ <- unlock s' h ;;
  Ok s'.

Definition Get (s : Map) (k : Key) : result (V * bool) :=
  h <- Inthash.Get (hash s) k ;;
  _ <- rLock s h ;;
  seg <- index (segment s) h ;;
  r <- Ok (match Gomap.lookup seg k with
           | Some v => (v, true)
           | None => (zero, false)
           end) ;;
  _ <- rUnlock s h ;;
  Ok r.

(** The first loop of [Delete]: the keys grouped by segment. *)
Fixpoint groupKeys (hs : Hash) (keys : list Key)
    (hashes : gmap Z (list Key)) : result (gmap Z (list Key)) :=
  match keys with
  | [] => Ok hashes
  | k :: keys' =>
      i <- Inthash.Get hs k ;;
      j <- Inthash.Get hs k ;;
      groupKeys hs keys' (<[i := default [] (hashes !! j) ++ [k]]> hashes)
  end.

(** [for _, k := range hashKeys { delete(s.segment[h], k) }] *)
Fixpoint deleteKeys (s : Map) (h : Z) (hashKeys : list Key)
  : result Map :=
  match hashKeys with
  | [] => Ok s
  | k :: hashKeys' =>
      seg <- index (segment s) h ;;
      deleteKeys (withSegment s h (Gomap.delete seg k)) h hashKeys'
  end.

(** The second loop of [Delete], over the groups in the order given. *)
Fixpoint deleteGroups (s : Map) (groups : list (Z * list Key))
  : result Map :=
  match groups with
  | [] => Ok s
  | (h, hashKeys) :: groups' =>
      _ <- lock s h ;;
      s' <- deleteKeys s h hashKeys ;;
      _ <- unlock s' h ;;
      deleteGroups s' groups'
  end.

(** [Delete].  Go's [range] visits the groups in an order of its own
    choosing: [order] is that choice, a rearrangement of the entries
    of [hashes]. *)
Definition DeleteIn
    (order : list (Z * list Key) -> list (Z * list Key))
    (s : Map) (keys : list Key) : result Map :=
  hashes <- groupKeys (hash s) keys ∅ ;;
  deleteGroups s (order (map_to_list hashes)).


(** The callbacks of the map are Go closures: a callback is a function
    that also threads the state [C] of what it has captured, so that
    the state returned by an operation tells how the operation has
    called it. *)
Definition DeleteConditional {C : Type} (s : Map) (k : Key)
    (calculate : V -> C -> bool * C) (c : C)
  : result (Map * (V * bool) * C) :=
  h <- Inthash.Get (hash s) k ;;
  _ <- lock s h ;;
  seg <- index (segment s) h ;;
  match Gomap.lookup seg k with
  | Some v =>
      let '(condition, c') := calculate v c in
      let s' := if condition
                then withSegment s h (Gomap.delete seg k)
                else s in
      _ <- unlock s' h ;;
      Ok (s', (v, false), c')
  | None =>
      _ <- unlock s h ;;
      Ok (s, (zero, false), c)
  end.

Definition Len (s : Map) : result Z :=
  foldl (fun acc i =>
           _len <- acc ;;
           _ <- rLock s (Z.of_nat i) ;;
           seg <- index (segment s) (Z.of_nat i) ;;
           _ <- rUnlock s (Z.of_nat i) ;;
           Ok (_len + Gomap.len seg))
        (Ok 0) (seq 0 (length (segment s))).

Definition Keys (s : Map) : result (list Key) :=
  _ <- index (segment s) 0 ;;
  foldl (fun acc i =>
           keys <- acc ;;
           _ <- rLock s (Z.of_nat i) ;;
           seg <- index (segment s) (Z.of_nat i) ;;
           _ <- rUnlock s (Z.of_nat i) ;;
           Ok (keys ++ map fst seg))
        (Ok []) (seq 0 (length (segment s))).

Definition Values (s : Map) : result (list V) :=
  _ <- index (segment s) 0 ;;
  foldl (fun acc i =>
           values <- acc ;;
           _ <- rLock s (Z.of_nat i) ;;
           seg <- index (segment s) (Z.of_nat i) ;;
           _ <- rUnlock s (Z.of_nat i) ;;
           Ok (values ++ map snd seg))
        (Ok []) (seq 0 (length (segment s))).

Definition GetOrSet {C : Type} (s : Map) (k : Key)
    (calculate : C -> V * C) (c : C)
  : result (Map * (V * bool) * C) :=
  r <- Get s k ;;
  if snd r then Ok (s, (fst r, false), c)
  else
    h <- Inthash.Get (hash s) k ;;
    _ <- lock s h ;;
    seg <- index (segment s) h ;;
    match Gomap.lookup seg k with
    | Some v =>
        _ <- unlock s h ;;
        Ok (s, (v, false), c)
    | None =>
        let '(v, c') := calculate c in
        let s' := withSegment s h (Gomap.assign seg k v) in
        _ <- unlock s' h ;;
        Ok (s', (v, true), c')
    end.

Definition GetAndDelete (s : Map) (k : Key)
  : result (Map * (V * bool)) :=
  h <- Inthash.Get (hash s) k ;;
  _ <- lock s h ;;
  seg <- index (segment s) h ;;
  match Gomap.lookup seg k with
  | Some v =>
      let s' := withSegment s h (Gomap.delete seg k) in
      _ <- unlock s' h ;;
      Ok (s', (v, true))
  | None =>
      _ <- unlock s h ;;
      Ok (s, (zero, false))
  end.

Definition Update {C : Type} (s : Map) (k : Key) (defaultValue : V)
    (calculate : V -> C -> V * C) (c : C)
  : result (Map * (V * bool) * C) :=
  h <- Inthash.Get (hash s) k ;;
  _ <- lock s h ;;
  seg <- index (segment s) h ;;
  match Gomap.lookup seg k with
  | Some v =>
      let '(value, c') := calculate v c in
      let s' := withSegment s h (Gomap.assign seg k value) in
      _ <- unlock s' h ;;
      Ok (s', (value, false), c')
  | None =>
      let '(value, c') := calculate defaultValue c in
      let s' := withSegment s h (Gomap.assign seg k value) in
      _ <- unlock s' h ;;
      Ok (s', (value, true), c')
  end.

Definition UpdateExisting {C : Type} (s : Map) (k : Key)
    (calculate : V -> C -> V * C) (c : C)
  : result (Map * (V * bool) * C) :=
  h <- Inthash.Get (hash s) k ;;
  _ <- lock s h ;;
  seg <- index (segment s) h ;;
  match Gomap.lookup seg k with
  | Some v =>
      let '(value, c') := calculate v c in
      let s' := withSegment s h (Gomap.assign seg k value) in
      _ <- unlock s' h ;;
      Ok (s', (value, true), c')
  | None =>
      _ <- unlock s h ;;
      Ok (s, (zero, false), c)
  end.

(** [Calculate]: [None] is the [nil] it returns for an absent key. *)
Definition Calculate {C R : Type} (s : Map) (k : Key)
    (calculate : V -> C -> R * C) (c : C)
  : result (option R * bool * C) :=
  h <- Inthash.Get (hash s) k ;;
  _ <- lock s h ;;
  seg <- index (segment s) h ;;
  match Gomap.lookup seg k with
  | Some v =>
      let '(value, c') := calculate v c in
      _ <- unlock s h ;;
      Ok (Some value, true, c')
  | None =>
      _ <- unlock s h ;;
      Ok (None, false, c)
  end.

(** The inner loop of [Range]: [false] when [run] has stopped it. *)
Fixpoint rangeEntries {C : Type} (entries : Gomap.t V)
    (run : Key -> V -> C -> bool * C) (c : C) : bool * C :=
  match entries with
  | [] => (true, c)
  | (k, v) :: entries' =>
      let '(ok, c') := run k v c in
      if ok then rangeEntries entries' run c' else (false, c')
  end.

Fixpoint rangeSegments {C : Type} (s : Map) (ixs : list nat)
    (run : Key -> V -> C -> bool * C) (c : C) : result C :=
  match ixs with
  | [] => Ok c
  | i :: ixs' =>
      _ <- rLock s (Z.of_nat i) ;;
      seg <- index (segment s) (Z.of_nat i) ;;
      let '(ok, c') := rangeEntries seg run c in
      _ <- rUnlock s (Z.of_nat i) ;;
      if ok then rangeSegments s ixs' run c' else Ok c'
  end.

Definition Range {C : Type} (s : Map)
    (run : Key -> V -> C -> bool * C) (c : C) : result C :=
  rangeSegments s (seq 0 (length (segment s))) run c.

(** *** Sequences of calls

    A call of a public operation, and its effect on the map and on
    the state of the callbacks; what the call returns is dropped. *)
Inductive Op {C R : Type} : Type :=
  | OpSet (k : Key) (v : V)
  | OpGet (k : Key)
  | OpDelete (order : list (Z * list Key) -> list (Z * list Key))
      (keys : list Key)
  | OpDeleteConditional (k : Key) (calculate : V -> C -> bool * C)
  | OpLen
  | OpKeys
  | OpValues
  | OpGetOrSet (k : Key) (calculate : C -> V * C)
  | OpGetAndDelete (k : Key)
  | OpUpdate (k : Key) (defaultValue : V) (calculate : V -> C -> V * C)
  | OpUpdateExisting (k : Key) (calculate : V -> C -> V * C)
  | OpCalculate (k : Key) (calculate : V -> C -> R * C)
  | OpRange (run : Key -> V -> C -> bool * C).

Definition call {C R : Type} (st : Map * C) (op : @Op C R)
  : result (Map * C) :=
  let '(s, c) := st in
  match op with
  | OpSet k v => s' <- Set_ s k v ;; Ok (s', c)
  | OpGet k => _ <- Get s k ;; Ok (s, c)
  | OpDelete order keys => s' <- DeleteIn order s keys ;; Ok (s', c)
  | OpDeleteConditional k calculate =>
      r <- DeleteConditional s k calculate c ;; Ok (fst (fst r), snd r)
  | OpLen => _ <- Len s ;; Ok (s, c)
  | OpKeys => _ <- Keys s ;; Ok (s, c)
  | OpValues => _ <- Values s ;; Ok (s, c)
  | OpGetOrSet k calculate =>
      r <- GetOrSet s k calculate c ;; Ok (fst (fst r), snd r)
  | OpGetAndDelete k => r <- GetAndDelete s k ;; Ok (fst r, c)
  | OpUpdate k defaultValue calculate =>
      r <- Update s k defaultValue calculate c ;; Ok (fst (fst r), snd r)
  | OpUpdateExisting k calculate =>
      r <- UpdateExisting s k calculate c ;; Ok (fst (fst r), snd r)
  | OpCalculate k calculate =>
      r <- Calculate s k calculate c ;; Ok (s, snd r)
  | OpRange run => c' <- Range s run c ;; Ok (s, c')
  end.

Fixpoint calls {C R : Type} (st : Map * C) (ops : list (@Op C R))
  : result (Map * C) :=
  match ops with
  | [] => Ok st
  | op :: ops' => st' <- call st op ;; calls st' ops'
  end.

(** The keys a call can delete or overwrite. *)
Definition written {C R : Type} (op : @Op C R) : list Key :=
  match op with
  | OpSet k _ | OpDeleteConditional k _ | OpGetAndDelete k
  | OpUpdate k _ _ | OpUpdateExisting k _ => [k]
  | OpDelete _ keys => keys
  | _ => []
  end.

(** [range] may take the groups of [Delete] in any order. *)
Definition rearranges
    (order : list (Z * list Key) -> list (Z * list Key)) : Prop :=
  forall l, Permutation (order l) l.

(** A call that neither deletes nor overwrites what is stored under
    [k]: none of the keys it writes equals [k]. *)
Definition spares {C R : Type} (k : Key) (op : @Op C R) : Prop :=
  Forall (fun k' => Gomap.key_eqb k' k = false) (written op)
  /\ match op with
     | OpDelete order _ => rearranges order
     | _ => True
     end.

(** What [Get] answers from the segment of the key. *)
Definition answer (seg : Gomap.t V) (k : Key) : V * bool :=
  match Gomap.lookup seg k with
  | Some v => (v, true)
  | None => (zero, false)
  end.

(** [k] is routed to the segment [seg] of index [h], which has its
    mutex. *)
Definition routes (s : Map) (k : Key) (h : Z) (seg : Gomap.t V) : Prop :=
  Inthash.Get (hash s) k = Ok h
  /\ index (mutex s) h = Ok mkRWMutex
  /\ index (segment s) h = Ok seg.

(** [k] is routed to the segment of index [i]. *)
Definition route_is (hs : Hash) (i : Z) (k : Key) : bool :=
  match Inthash.Get hs k with
  | Ok h => h =? i
  | Panic _ => false
  end.

(** The entries of the segment of index [i] less those under one of
    [keys]: an entry goes when a listed key routed to the segment
    equals its key. *)
Definition less (hs : Hash) (keys : list Key) (i : nat)
    (seg : Gomap.t V) : Gomap.t V :=
  List.filter
    (fun e => negb (existsb (fun k => Gomap.key_eqb (fst e) k
                                      && route_is hs (Z.of_nat i) k)
                      keys))
    seg.

(** The map with the entries under [keys] taken out of every segment. *)
Definition without (s : Map) (keys : list Key) : Map :=
  {| segment := imap (less (hash s) keys) (segment s);
     mutex := mutex s;
     hash := hash s;
     segmented := segmented s |}.

(** The keys that the groups of a [Delete] hold for the segment of
    index [i], in the order in which they are deleted. *)
Definition keys_for (groups : list (Z * list Key)) (i : nat)
  : list Key :=
  flat_map (fun g => if Nat.eqb (Z.to_nat (fst g)) i then snd g else [])
    groups.

(** [h] indexes a segment and its mutex. *)
Definition in_range (s : Map) (h : Z) : Prop :=
  index (mutex s) h = Ok mkRWMutex
  /\ exists seg, index (segment s) h = Ok seg.


End Map.

Arguments Map V : clear implicits.
Arguments Op V C R : clear implicits.

End Segmentedmap.

(** ** Fixtures of the examples *)

Module Fixtures.
Import Inthash Segmentedmap.

(** A callback that leaves a count of its calls behind. *)
Definition counting {A B : Type} (f : A -> B) : A -> nat -> B * nat :=
  fun a n => (f a, S n).

Definition counting0 {B : Type} (b : B) : nat -> B * nat :=
  fun n => (b, S n).

(** The keys of hash_test.go: "test-1" to "test-6", and 1 to 8. *)
Definition test_strings : list Key :=
  map KString ["test-1"; "test-2"; "test-3"; "test-4"; "test-5";
               "test-6"]%string.

Definition test_ints : list Key := map KInt [1; 2; 3; 4; 5; 6; 7; 8].

(** The map of the tests of map_test.go: two segments, "value1" under
    the key 1. *)
Definition test_map : Map string :=
  {| segment := [[(KInt 1, "value1"%string)]; []];
     mutex := [mkRWMutex; mkRWMutex];
     hash := NewHash 2;
     segmented := true |}.

End Fixtures.

(** ** The encodings the specification names *)

(** [v], of [n] bytes, least significant byte first. *)
Fixpoint le_bytes (n : nat) (v : Z) : list Z :=
  match n with
  | O => []
  | S n' => v mod 256 :: le_bytes n' (v / 256)
  end.

(** The number a little-endian byte sequence stands for. *)
Fixpoint le_value (bytes : list Z) : Z :=
  match bytes with
  | [] => 0
  | b :: bytes' => b + 256 * le_value bytes'
  end.

(** The width in bytes of an integer kind: that of its type, an [int] and
    a [uint] being 64 bits wide. *)
Definition byte_width (kind : Kind) : option nat :=
  match kind with
  | KindInt8 | KindUint8 => Some 1%nat
  | KindInt16 | KindUint16 => Some 2%nat
  | KindInt32 | KindUint32 => Some 4%nat
  | KindInt | KindUint | KindInt64 | KindUint64 => Some 8%nat
  | _ => None
  end.

(** The width in bytes the router encodes a signed integer or a [uint64]
    with. *)
Definition encoded_width (kind : Kind) : option nat :=
  match kind with
  | KindInt8 | KindInt16 => Some 2%nat
  | KindInt | KindInt32 => Some 4%nat
  | KindInt64 | KindUint64 => Some 8%nat
  | _ => None
  end.

(** The integer a key of an integer kind holds. *)
Definition int_value (k : Inthash.Key) : option Z :=
  match k with
  | Inthash.KInt i | Inthash.KInt8 i | Inthash.KInt16 i | Inthash.KInt32 i
  | Inthash.KInt64 i => Some i
  | Inthash.KUint u | Inthash.KUint8 u | Inthash.KUint16 u
  | Inthash.KUint32 u | Inthash.KUint64 u => Some u
  | _ => None
  end.

(** The kinds whose case in [Get] reads the key with the accessor of its
    kind. *)
Definition routed (k : Inthash.Key) : bool :=
  match Inthash.KindOf k with
  | KindUint | KindUint8 | KindUint16 | KindUint32 | KindOther => false
  | _ => true
  end.

(** ** The rest of hash.go: the byte views *)

Module Unsafe.

Definition ascii_of_byte (b : Z) : ascii := ascii_of_N (Z.to_N b).

(** [BytesToString]: [unsafe.String(&b[0], len(b))].  [&b[0]] indexes the
    slice and panics on an empty one. *)
Definition BytesToString (b : list Z) : result string :=
  match b with
  | [] => Panic (IndexOutOfRange 0 0)
  | _ :: _ => Ok (string_of_list_ascii (map ascii_of_byte b))
  end.

End Unsafe.

(** ** What the map keeps true of itself *)

Module Invariant.
Import Inthash Segmentedmap.

Section Defs.
Context {V : Type}.

(** No two entries of a Go map are under equal keys. *)
Fixpoint distinct (seg : Gomap.t V) : Prop :=
  match seg with
  | [] => True
  | (k, _) :: seg' => Gomap.lookup seg' k = None /\ distinct seg'
  end.

(** Every entry of the segment of index [i] is under a key that the
    router sends to [i]. *)
Definition placed (hs : Hash) (i : nat) (seg : Gomap.t V) : Prop :=
  Forall (fun e => Inthash.Get hs (fst e) = Ok (Z.of_nat i)) seg.

(** A map as the constructor makes it for at least one segment, and as
    the operations leave it. *)
Record built (s : Map V) : Prop := mkBuilt {
  built_count : (1 <= length (segment s))%nat;
  built_mutex : length (mutex s) = length (segment s);
  built_hash : hash s = NewHash (Z.of_nat (length (segment s)));
  built_segmented :
    segmented s = if Z.of_nat (length (segment s)) >? 1 then true else false;
  built_segments :
    forall i seg, segment s !! i = Some seg ->
                  distinct seg /\ placed (hash s) i seg
}.

(** All the entries of the map, segment after segment. *)
Definition entries (s : Map V) : Gomap.t V := concat (segment s).

(** The keys a call is given. *)
Definition keys_of {C R : Type} (op : Op V C R) : list Key :=
  match op with
  | OpSet k _ | OpGet k | OpDeleteConditional k _ | OpGetOrSet k _
  | OpGetAndDelete k | OpUpdate k _ _ | OpUpdateExisting k _
  | OpCalculate k _ => [k]
  | OpDelete _ keys => keys
  | OpLen | OpKeys | OpValues | OpRange _ => []
  end.

(** A call whose keys the router returns on, and whose [Delete] takes its
    groups in an order that [range] may take. *)
Definition admissible {C R : Type} (op : Op V C R) : Prop :=
  Forall (fun k => routed k = true) (keys_of op)
  /\ match op with
     | OpDelete order _ => rearranges order
     | _ => True
     end.

(** A callback of [Range] that notes the keys it is shown and goes on. *)
Definition noting (k : Key) (v : V) (seen : list Key) : bool * list Key :=
  (true, seen ++ [k]).

End Defs.

Section Reached.
Context {V : Type} `{Zero V}.


End Reached.

End Invariant.

(** * Properties *)

(** ** The router *)

Module InthashFacts.
Import Inthash.
Local Open Scope string_scope.

(** *** The vectors of hash_test.go *)

Example TestStringHash :
  map (Get (NewHash 0)) [KString "test-1"; KString "test-2"] = [Ok 0; Ok 0]
  /\ map (Get (NewHash 2)) [KString "test-1"; KString "test-2";
                            KString "test-3"] = [Ok 1; Ok 0; Ok 1]
  /\ map (Get (NewHash 4)) [KString "test-1"; KString "test-2";
                            KString "test-3"; KString "test-4"]
     = [Ok 3; Ok 0; Ok 1; Ok 2].
Proof. vm_compute. auto. Qed.

Example TestIntHash :
  map (Get (NewHash 4)) (map KInt [1; 2; 3; 4]) = [Ok 2; Ok 3; Ok 0; Ok 1]
  /\ map (Get (NewHash 8))
       (map KInt [65459879; 32132; 670985037; 670984781; 670722637])
     = [Ok 7; Ok 4; Ok 4; Ok 1; Ok 5].
Proof. vm_compute. auto. Qed.

(** 1.1, 1.2, ... 1.8, 32132.0 and 32132.564 as [float64]. *)
Example TestFloatHash :
  map (Get (NewHash 8))
    (map KFloat64
       [4607632778762754458; 4608083138725491507; 4608533498688228557;
        4608983858650965606; 4609434218613702656; 4609884578576439706;
        4610334938539176755; 4610785298501913805; 4674561590861758464;
        4674561745892897980])
  = [Ok 4; Ok 5; Ok 3; Ok 0; Ok 5; Ok 4; Ok 5; Ok 3; Ok 3; Ok 7].
Proof. vm_compute. reflexivity. Qed.

(** *** Which keys the router returns on *)

Lemma keyBytes_routed (k : Key) :
  routed k = true -> exists bytes, keyBytes k = Ok bytes.
Proof.
  destruct k; cbn; intros Hk; try discriminate; eauto.
Qed.

Lemma keyBytes_not_routed (k : Key) :
  routed k = false -> exists p, keyBytes k = Panic p.
Proof.
  destruct k; cbn; intros Hk; try discriminate; eauto.
Qed.

Lemma Get_routed (s : Hash) (k : Key) :
  routed k = true -> exists i, Get s k = Ok i.
Proof.
  intros Hk. destruct (keyBytes_routed k Hk) as [bytes Hb].
  unfold Get. rewrite Hb. cbn. eauto.
Qed.

Lemma Get_Ok_routed (s : Hash) (k : Key) (i : Z) :
  Get s k = Ok i -> routed k = true.
Proof.
  destruct (routed k) eqn:Hk; [reflexivity|].
  destruct (keyBytes_not_routed k Hk) as [p Hp].
  unfold Get. rewrite Hp. discriminate.
Qed.

(** The index depends on the router through its mask alone. *)
Lemma Get_mask (s s' : Hash) (k : Key) :
  hmask s = hmask s' -> Get s k = Get s' k.
Proof. unfold Get. intros ->. reflexivity. Qed.

(** *** The mask *)

Lemma mask_ones (n : Z) :
  exists j, 0 <= j <= 16 /\ mask n = Z.ones j /\ 2 ^ j <= Z.max n 1.
Proof.
  unfold mask, log2_bits.
  set (size := Z.max n 1).
  assert (Hsize : 0 < size) by (unfold size; lia).
  set (b := uint16 (Z.log2 size)).
  assert (Hb : 0 <= b <= Z.log2 size).
  { unfold b, uint16. pose proof (Z.log2_nonneg size).
    pose proof (Z.mod_pos_bound (Z.log2 size) (2 ^ 16) ltac:(lia)).
    pose proof (Z.mod_le (Z.log2 size) (2 ^ 16) ltac:(lia) ltac:(lia)).
    lia. }
  assert (Hpow : 2 ^ b <= size).
  { pose proof (Z.log2_spec size Hsize) as [Hlo _].
    pose proof (Z.pow_le_mono_r 2 b (Z.log2 size) ltac:(lia) (proj2 Hb)).
    lia. }
  rewrite Z.shiftl_1_l.
  destruct (Z.ltb_spec b 16) as [Hlt | Hge].
  - exists b. split; [lia|]. split; [|exact Hpow].
    assert (0 < 2 ^ b < 2 ^ 16).
    { split; [apply Z.pow_pos_nonneg; lia|].
      apply Z.pow_lt_mono_r; lia. }
    unfold uint16. rewrite (Z.mod_small (2 ^ b)) by lia.
    rewrite Z.mod_small by lia.
    rewrite Z.ones_equiv. lia.
  - exists 16. split; [lia|]. split.
    + replace b with (16 + (b - 16)) by lia.
      rewrite Z.pow_add_r by lia.
      unfold uint16.
      rewrite Z.mul_comm, Z.mod_mul by lia. reflexivity.
    + pose proof (Z.pow_le_mono_r 2 16 b ltac:(lia) Hge). lia.
Qed.

Lemma mask_0 (n : Z) : n <= 1 -> mask n = 0.
Proof.
  intros Hn. unfold mask. replace (Z.max n 1) with 1 by lia. reflexivity.
Qed.

Lemma Get_range (n : Z) (s : Hash) (k : Key) (i : Z) :
  hmask s = mask n -> Get s k = Ok i -> 0 <= i < Z.max n 1.
Proof.
  intros Hmask HGet. unfold Get in HGet.
  destruct (keyBytes k) as [bytes|p]; cbn in HGet; [|discriminate].
  injection HGet as <-.
  destruct (mask_ones n) as (j & Hj & Hones & Hle).
  rewrite Hmask, Hones, Z.land_ones by lia.
  pose proof (Z.mod_pos_bound (Fnv.Sum32 (Fnv.Write Fnv.New32 bytes))
                (2 ^ j) ltac:(apply Z.pow_pos_nonneg; lia)).
  lia.
Qed.

Lemma Get_single_segment (n : Z) (s : Hash) (k : Key) (i : Z) :
  n <= 1 -> hmask s = mask n -> Get s k = Ok i -> i = 0.
Proof.
  intros Hn Hmask HGet.
  pose proof (Get_range n s k i Hmask HGet). lia.
Qed.

(** The index is never negative: the sum of the hasher is not. *)

Lemma keyBytes_nonneg (k : Key) (bytes : list Z) :
  keyBytes k = Ok bytes -> Forall (fun b => 0 <= b) bytes.
Proof.
  assert (Hu : forall x, 0 <= uint8 x).
  { intros x. unfold uint8. apply Z.mod_pos_bound. lia. }
  destruct k; cbn; try discriminate; intros [= <-];
    try (repeat constructor; apply Hu).
  unfold StringToBytes. apply List.Forall_forall. intros b Hb.
  apply in_map_iff in Hb as (c & <- & _). unfold byte_of_ascii. lia.
Qed.

Lemma Write_nonneg (bytes : list Z) (s : Fnv.sum32) :
  0 <= s -> Forall (fun b => 0 <= b) bytes -> 0 <= Fnv.Write s bytes.
Proof.
  intros Hs Hall. revert s Hs. unfold Fnv.Write.
  induction Hall as [|b bytes Hb _ IH]; intros s Hs; cbn; [done|].
  apply IH. unfold Fnv.step. apply Z.lxor_nonneg.
  split; [done|]. intros _. unfold uint32. apply Z.mod_pos_bound. lia.
Qed.

Lemma Get_nonneg (s : Hash) (k : Key) (i : Z) : Get s k = Ok i -> 0 <= i.
Proof.
  unfold Get. destruct (keyBytes k) as [bytes|] eqn:Hb; cbn; [|discriminate].
  intros [= <-]. apply Z.land_nonneg. left.
  apply Write_nonneg; [done|]. by eapply keyBytes_nonneg.
Qed.

(** *** Little-endian encodings *)

Lemma length_le_bytes (n : nat) (v : Z) : length (le_bytes n v) = n.
Proof. revert v. induction n; intros; cbn; [reflexivity|]. by rewrite IHn. Qed.

Lemma le_value_le_bytes (n : nat) (v : Z) :
  le_value (le_bytes n v) = v mod 2 ^ (8 * Z.of_nat n).
Proof.
  revert v. induction n as [|n IH]; intros v.
  - cbn. by rewrite Z.mod_1_r.
  - cbn [le_bytes le_value]. rewrite IH.
    replace (8 * Z.of_nat (S n)) with (8 + 8 * Z.of_nat n) by lia.
    rewrite Z.pow_add_r by lia.
    change (2 ^ 8) with 256.
    rewrite Z.rem_mul_r by lia. reflexivity.
Qed.

Lemma byte_of_wrapped (v a b : Z) :
  0 <= a -> a + 8 <= b ->
  uint8 (Z.shiftr (v mod 2 ^ b) a) = (v / 2 ^ a) mod 256.
Proof.
  intros Ha Hb. unfold uint8. change 256 with (2 ^ 8).
  apply Z.bits_inj'. intros i Hi.
  destruct (Z.ltb_spec i 8).
  - rewrite !Z.mod_pow2_bits_low by lia.
    rewrite Z.shiftr_spec, Z.div_pow2_bits by lia.
    rewrite Z.mod_pow2_bits_low by lia. reflexivity.
  - rewrite !Z.mod_pow2_bits_high by lia. reflexivity.
Qed.

Lemma byte0_of_wrapped (v b : Z) :
  8 <= b -> uint8 (v mod 2 ^ b) = v mod 256.
Proof.
  intros Hb. rewrite <- (Z.shiftr_0_r (v mod 2 ^ b)).
  rewrite byte_of_wrapped by lia. by rewrite Z.div_1_r.
Qed.

Lemma PutUint16_le (v : Z) :
  LittleEndian.PutUint16 (uint16 v) = le_bytes 2 v.
Proof.
  unfold LittleEndian.PutUint16, uint16. cbn [le_bytes].
  rewrite byte0_of_wrapped, !byte_of_wrapped by lia.
  reflexivity.
Qed.

Lemma PutUint32_le (v : Z) :
  LittleEndian.PutUint32 (uint32 v) = le_bytes 4 v.
Proof.
  unfold LittleEndian.PutUint32, uint32. cbn [le_bytes].
  rewrite byte0_of_wrapped, !byte_of_wrapped by lia.
  rewrite !Z.div_div by lia. reflexivity.
Qed.

Lemma PutUint64_le (v : Z) :
  LittleEndian.PutUint64 (uint64 v) = le_bytes 8 v.
Proof.
  unfold LittleEndian.PutUint64, uint64. cbn [le_bytes].
  rewrite byte0_of_wrapped, !byte_of_wrapped by lia.
  rewrite !Z.div_div by lia. reflexivity.
Qed.

End InthashFacts.

Module RouterClaims.
Import Inthash InthashFacts Fixtures.
Local Open Scope string_scope.

(** C2.  [Get] does not return on every key of the types [Hashable]
    admits: the cases of the kinds Uint, Uint8, Uint16 and Uint32 read
    the key with [reflect.Value.Int], which panics on an unsigned
    value, whatever the value and the router (the case of Uint64 reads
    it with [Uint]).  On every other supported kind [Get] returns an
    index. *)
Theorem Get_panics_on_unsigned (s : Hash) (u : Z) :
  Get s (KUint u) = Panic (ValueError "reflect.Value.Int" KindUint)
  /\ Get s (KUint8 u) = Panic (ValueError "reflect.Value.Int" KindUint8)
  /\ Get s (KUint16 u) = Panic (ValueError "reflect.Value.Int" KindUint16)
  /\ Get s (KUint32 u) = Panic (ValueError "reflect.Value.Int" KindUint32)
  /\ (exists i, Get s (KUint64 u) = Ok i)
  /\ (forall k, routed k = true -> exists i, Get s k = Ok i).
Proof.
  repeat split; try reflexivity.
  - apply Get_routed. reflexivity.
  - apply Get_routed.
Qed.

(** C4, as stated, fails: the router hashes an 8-bit integer as two
    bytes, not as the one byte of its width. *)
Lemma int8_key_takes_two_bytes :
  byte_width (KindOf (KInt8 1)) = Some 1%nat
  /\ keyBytes (KInt8 1) = Ok [1; 0]
  /\ keyBytes (KInt8 1) <> Ok (le_bytes 1 1).
Proof. repeat split. discriminate. Qed.

(** C4, amended.  The bytes hashed for a signed integer key or a
    [uint64] key are its value in two's complement, least significant
    byte first, on 2 bytes for the kinds Int8 and Int16, on 4 bytes for
    Int and Int32 and on 8 bytes for Int64 and Uint64; the bytes hashed
    for a string key are the bytes of the string. *)
Theorem keyBytes_little_endian (k : Key) (w : nat) (v : Z) :
  encoded_width (KindOf k) = Some w ->
  int_value k = Some v ->
  keyBytes k = Ok (le_bytes w v)
  /\ length (le_bytes w v) = w
  /\ le_value (le_bytes w v) = v mod 2 ^ (8 * Z.of_nat w)
  /\ forall s, keyBytes (KString s) = Ok (StringToBytes s).
Proof.
  intros Hw Hv.
  split; [|split; [apply length_le_bytes|split;
                   [apply le_value_le_bytes|reflexivity]]].
  destruct k; cbn in Hw, Hv; try discriminate;
    injection Hw as <-; injection Hv as <-; cbn;
    by rewrite ?PutUint16_le, ?PutUint32_le, ?PutUint64_le.
Qed.

Lemma keyBytes_little_endian_witness :
  keyBytes (KInt8 (-2)) = Ok [254; 255]
  /\ keyBytes (KInt 670985037) = Ok [77; 107; 254; 39].
Proof.
  split.
  - exact (proj1 (keyBytes_little_endian (KInt8 (-2)) 2 (-2)
                    eq_refl eq_refl)).
  - exact (proj1 (keyBytes_little_endian (KInt 670985037) 4 670985037
                    eq_refl eq_refl)).
Defined.

(** C5, as stated, fails: a router constructed for 0 segments returns
    the index 0, which the empty interval [0, 0) does not hold. *)
Lemma index_outside_interval_at_count_0 :
  Get (NewHash 0) (KString "test-1") = Ok 0
  /\ ~ (0 <= 0 < Segments (NewHash 0)).
Proof. split; [vm_compute; reflexivity|]. cbn. lia. Qed.

(** C5, amended.  For every segment count of at least 1 and every key
    whose case in [Get] reads it with the accessor of its kind, [Get]
    returns an index of [0, segmentCount), the same on every router of
    that count, however constructed; the index is a function of the
    mask and the key alone.  A router constructed with a count below 1
    returns the index 0. *)
Theorem Get_index_in_range (n : Z) (k : Key) :
  1 <= n ->
  routed k = true ->
  exists i,
    Get (NewHash n) k = Ok i
    /\ 0 <= i < n
    /\ Get (New n) k = Ok i
    /\ (forall s, hmask s = mask n -> Get s k = Ok i)
    /\ (forall m j, m < 1 -> Get (NewHash m) k = Ok j -> j = 0).
Proof.
  intros Hn Hk. destruct (Get_routed (NewHash n) k Hk) as [i Hi].
  exists i. split; [exact Hi|].
  split.
  { pose proof (Get_range n (NewHash n) k i eq_refl Hi). lia. }
  split; [exact Hi|].
  split.
  { intros s Hs. rewrite <- Hi. by apply Get_mask. }
  intros m j Hm Hj.
  apply (Get_single_segment m (NewHash m) k j); [lia|reflexivity|exact Hj].
Qed.

Lemma Get_index_in_range_witness :
  exists i, Get (NewHash 10) (KInt 7) = Ok i /\ 0 <= i < 10.
Proof.
  destruct (Get_index_in_range 10 (KInt 7)) as (i & Hi & Hr & _);
    [lia|reflexivity|].
  exists i. split; assumption.
Defined.

(** C6.  With 8 segments the strings "test-1" to "test-6" have the
    indices 3, 0, 1, 6, 7, 4 and the integers 1 to 8 the indices
    2, 7, 4, 1, 6, 3, 0, 5, on every router whose mask is that of 8
    segments: on each call, and on [NewHash 8] and [New 8] alike. *)
Theorem indices_with_8_segments :
  map (Get (NewHash 8)) test_strings = map Ok [3; 0; 1; 6; 7; 4]
  /\ map (Get (NewHash 8)) test_ints = map Ok [2; 7; 4; 1; 6; 3; 0; 5]
  /\ map (Get (New 8)) test_strings = map (Get (NewHash 8)) test_strings
  /\ map (Get (New 8)) test_ints = map (Get (NewHash 8)) test_ints
  /\ forall s k, hmask s = mask 8 -> Get s k = Get (NewHash 8) k.
Proof.
  split; [vm_compute; reflexivity|].
  split; [vm_compute; reflexivity|].
  split; [reflexivity|].
  split; [reflexivity|].
  intros s k Hs. by apply Get_mask.
Qed.

End RouterClaims.

(** ** Go's map *)

Module GomapFacts.
Import Inthash Gomap.

(** *** [==] is symmetric and transitive, and reflexive off NaN *)

Lemma SFeqb_true (f g : spec_float) :
  SFeqb f g = true <->
  match f, g with
  | S754_zero _, S754_zero _ => True
  | S754_nan, _ | _, S754_nan => False
  | _, _ => f = g
  end.
Proof.
  unfold SFeqb, SFcompare.
  destruct f as [s1|s1| |s1 m1 e1], g as [s2|s2| |s2 m2 e2];
    try (split; [discriminate || (intros; exact I) || tauto
                | done || tauto ]);
    try (destruct s1, s2; split; (done || discriminate)).
  change (Pos.compare_cont Eq m1 m2) with (Pos.compare m1 m2).
  destruct s1, s2; try (split; (done || discriminate));
    destruct (Z.compare_spec e1 e2);
    try (split; (discriminate || congruence || lia));
    try (split; (discriminate || (intros [=]; lia)));
    destruct (Pos.compare_spec m1 m2); cbn;
    split; (discriminate || congruence || (intros [=]; lia)).
Qed.

Lemma SFeqb_sym (f g : spec_float) : SFeqb f g = SFeqb g f.
Proof.
  apply eq_true_iff_eq. rewrite !SFeqb_true.
  destruct f, g; intuition congruence.
Qed.

Lemma SFeqb_trans (f g h : spec_float) :
  SFeqb f g = true -> SFeqb g h = true -> SFeqb f h = true.
Proof.
  rewrite !SFeqb_true.
  destruct f, g; try tauto; destruct h; try tauto; congruence.
Qed.

Lemma key_eqb_sym (a b : Key) : key_eqb a b = key_eqb b a.
Proof.
  destruct a, b; cbn; try reflexivity;
    first [apply String.eqb_sym | apply Z.eqb_sym | apply SFeqb_sym].
Qed.

Lemma key_eqb_trans (a b c : Key) :
  key_eqb a b = true -> key_eqb b c = true -> key_eqb a c = true.
Proof.
  destruct a, b; cbn; try discriminate; destruct c; cbn;
    try discriminate; try done;
    first [ rewrite !String.eqb_eq; congruence
          | rewrite !Z.eqb_eq; congruence
          | apply SFeqb_trans ].
Qed.

(** A key equals itself unless it is a NaN. *)
Lemma key_eqb_refl (a : Key) : key_eqb a a = negb (isNaN a).
Proof.
  assert (Hf : forall f, SFeqb f f
                         = negb match f with S754_nan => true | _ => false end).
  { intros f. apply eq_true_iff_eq. rewrite SFeqb_true.
    destruct f; cbn; intuition congruence. }
  destruct a; cbn; try reflexivity;
    first [apply String.eqb_refl | apply Z.eqb_refl | apply Hf].
Qed.

Lemma key_eqb_not_NaN (a : Key) : isNaN a = false -> key_eqb a a = true.
Proof. intros Ha. by rewrite key_eqb_refl, Ha. Qed.

(** A key that equals some key equals itself. *)
Lemma key_eqb_refl_l (a b : Key) : key_eqb a b = true -> key_eqb a a = true.
Proof.
  intros Hab. apply (key_eqb_trans a b a); [done|].
  by rewrite key_eqb_sym.
Qed.

Lemma key_eqb_refl_r (a b : Key) : key_eqb a b = true -> key_eqb b b = true.
Proof. rewrite key_eqb_sym. apply key_eqb_refl_l. Qed.

(** Two keys that differ from one another are not both equal to a third. *)
Lemma key_eqb_apart (a b c : Key) :
  key_eqb a b = false -> key_eqb c a = true -> key_eqb c b = false.
Proof.
  intros Hab Hca. destruct (key_eqb c b) eqn:Hcb; [|done].
  rewrite key_eqb_sym in Hca.
  by rewrite (key_eqb_trans a c b Hca Hcb) in Hab.
Qed.

Section Lookup.
Context {V : Type}.
Implicit Types (m : Gomap.t V) (k : Key) (v : V).

Lemma lookup_Some_refl m k v : lookup m k = Some v -> key_eqb k k = true.
Proof.
  induction m as [|[k' v'] m IH]; cbn; [discriminate|].
  destruct (key_eqb k' k) eqn:E; [|exact IH].
  intros _. by apply key_eqb_refl_r in E.
Qed.

Lemma lookup_In m k v :
  lookup m k = Some v -> exists k', In (k', v) m /\ key_eqb k' k = true.
Proof.
  induction m as [|[k' v'] m IH]; cbn; [discriminate|].
  destruct (key_eqb k' k) eqn:E.
  - intros [= ->]. eauto.
  - intros Hl. destruct (IH Hl) as (k'' & Hin & Hk). eauto.
Qed.

Lemma lookup_assign_eq m k v :
  key_eqb k k = true -> lookup (assign m k v) k = Some v.
Proof.
  intros Hk. induction m as [|[k' v'] m IH]; cbn.
  - by rewrite Hk.
  - destruct (key_eqb k' k) eqn:E; cbn.
    + by rewrite Hk.
    + by rewrite E.
Qed.

Lemma lookup_assign_ne m k k' v :
  key_eqb k k' = false -> lookup (assign m k v) k' = lookup m k'.
Proof.
  intros Hk. induction m as [|[k0 v0] m IH]; cbn.
  - by rewrite Hk.
  - destruct (key_eqb k0 k) eqn:E; cbn.
    + by rewrite Hk, (key_eqb_apart k k' k0 Hk E).
    + by rewrite IH.
Qed.

Lemma In_assign m k v : In (k, v) (assign m k v).
Proof.
  induction m as [|[k' v'] m IH]; cbn; [by left|].
  destruct (key_eqb k' k); [by left|by right].
Qed.

Lemma lookup_delete_eq m k : lookup (delete m k) k = None.
Proof.
  unfold delete. induction m as [|[k' v'] m IH]; cbn; [done|].
  destruct (key_eqb k' k) eqn:E; cbn; [done|]. by rewrite E.
Qed.

Lemma lookup_delete_ne m k k' :
  key_eqb k k' = false -> lookup (delete m k) k' = lookup m k'.
Proof.
  intros Hk. unfold delete. induction m as [|[k0 v0] m IH]; cbn; [done|].
  destruct (key_eqb k0 k) eqn:E; cbn.
  - by rewrite (key_eqb_apart k k' k0 Hk E).
  - by rewrite IH.
Qed.

(** Deleting a key that the map does not find changes no lookup. *)
Lemma lookup_delete m k k' :
  lookup (delete m k) k' =
  if key_eqb k k' then None else lookup m k'.
Proof.
  destruct (key_eqb k k') eqn:E; [|by apply lookup_delete_ne].
  unfold delete. induction m as [|[k0 v0] m IH]; cbn; [done|].
  destruct (key_eqb k0 k) eqn:E0; cbn; [done|].
  destruct (key_eqb k0 k') eqn:E1; [|done].
  rewrite key_eqb_sym in E.
  by rewrite (key_eqb_trans k0 k' k E1 E) in E0.
Qed.

(** Equal keys find the same entry. *)
Lemma lookup_eqv m k k' :
  key_eqb k k' = true -> lookup m k = lookup m k'.
Proof.
  intros Hk. induction m as [|[k0 v0] m IH]; cbn; [done|].
  destruct (key_eqb k0 k) eqn:E.
  - by rewrite (key_eqb_trans k0 k k' E Hk).
  - destruct (key_eqb k0 k') eqn:E'; [|done].
    rewrite key_eqb_sym in Hk.
    by rewrite (key_eqb_trans k0 k' k E' Hk) in E.
Qed.

(** A run of deletions is one filter. *)
Lemma foldl_delete m (ks : list Key) :
  foldl delete m ks
  = List.filter (fun e => negb (existsb (fun k => key_eqb (fst e) k) ks)) m.
Proof.
  revert m. induction ks as [|k ks IH]; intros m; cbn.
  - induction m as [|e m IHm]; cbn; [done|]. by rewrite <- IHm.
  - rewrite IH. unfold delete. clear IH.
    induction m as [|e m IHm]; cbn; [done|].
    destruct (key_eqb (fst e) k); cbn; [done|].
    destruct (existsb _ ks); cbn; [done|]. by rewrite IHm.
Qed.

End Lookup.

End GomapFacts.

(** ** The segmented map *)

Module SegmentedmapFacts.
Import Inthash Gomap GomapFacts InthashFacts Segmentedmap.

#[local] Arguments index : simpl never.
#[local] Arguments Inthash.Get : simpl never.

(** *** Slices *)

Lemma index_Ok {A : Type} (l : list A) (i : Z) (x : A) :
  index l i = Ok x <-> 0 <= i /\ l !! Z.to_nat i = Some x.
Proof.
  unfold index. destruct (Z.ltb_spec i 0).
  - split; [discriminate|lia].
  - destruct (l !! Z.to_nat i) as [y|].
    + split; [by intros [= ->]|by intros [_ [= ->]]].
    + split; [discriminate|by intros [_ [=]]].
Qed.

Lemma index_insert {A : Type} (l : list A) (h i : Z) (x y : A) :
  index l h = Ok x ->
  index (<[Z.to_nat h := y]> l) i = if i =? h then Ok y else index l i.
Proof.
  intros [Hh Hx]%index_Ok.
  destruct (Z.eqb_spec i h) as [->|Hne].
  - apply index_Ok. split; [done|].
    apply list_lookup_insert_eq. by eapply lookup_lt_Some.
  - unfold index. rewrite length_insert.
    destruct (Z.ltb_spec i 0); [done|].
    rewrite list_lookup_insert_ne by lia. done.
Qed.

Lemma index_replicate {A : Type} (n : nat) (x : A) (i : Z) :
  index (replicate n x) i
  = if (0 <=? i) && (i <? Z.of_nat n) then Ok x
    else Panic (IndexOutOfRange i n).
Proof.
  unfold index. rewrite length_replicate.
  destruct (Z.ltb_spec i 0), (Z.leb_spec 0 i); try lia; cbn; [done|].
  destruct (Z.ltb_spec i (Z.of_nat n)).
  - rewrite (proj2 (lookup_replicate n x x (Z.to_nat i))); [done|].
    split; [done|lia].
  - destruct (replicate n x !! Z.to_nat i) eqn:E; [|done].
    apply lookup_replicate in E. lia.
Qed.

Section Facts.
Context {V : Type} `{Zero V}.
Implicit Types (s : Map V) (k : Key) (v : V) (h : Z) (seg : Gomap.t V).

Lemma Get_routes s k r :
  Get s k = Ok r <-> exists h seg, routes s k h seg /\ r = answer seg k.
Proof.
  unfold Get, rLock, rUnlock, routes, answer. split.
  - destruct (Inthash.Get (hash s) k) as [h|]; cbn; [|discriminate].
    destruct (index (mutex s) h) as [mu|] eqn:Hmu; cbn; [|discriminate].
    destruct mu.
    destruct (index (segment s) h) as [seg|] eqn:Hseg; cbn;
      [|discriminate].
    intros [= <-]. by exists h, seg.
  - intros (h & seg & (Hk & Hmu & Hseg) & ->).
    rewrite Hk. cbn. rewrite Hmu. cbn. rewrite Hseg. cbn.
    by rewrite ?Hmu.
Qed.

Lemma routes_Get s k h seg : routes s k h seg -> Get s k = Ok (answer seg k).
Proof. intros Hr. apply Get_routes. eauto. Qed.

Lemma routes_withSegment s k h seg m' k' h' seg' :
  routes s k h seg ->
  routes s k' h' seg' ->
  routes (withSegment s h m') k' h' (if h' =? h then m' else seg').
Proof.
  intros (Hk & Hmu & Hseg) (Hk' & Hmu' & Hseg').
  unfold routes, withSegment; cbn.
  split; [done|]. split; [done|].
  rewrite (index_insert _ _ _ _ _ Hseg).
  by destruct (h' =? h).
Qed.

Lemma Get_withSegment_other s h seg m' k' :
  index (segment s) h = Ok seg ->
  (Inthash.Get (hash s) k' = Ok h ->
   Gomap.lookup m' k' = Gomap.lookup seg k') ->
  Get (withSegment s h m') k' = Get s k'.
Proof.
  intros Hseg Hsame. unfold Get, rLock, rUnlock, withSegment; cbn.
  destruct (Inthash.Get (hash s) k') as [h'|] eqn:Hk'; cbn; [|done].
  destruct (index (mutex s) h') as [[]|]; cbn; [|done].
  rewrite (index_insert _ _ _ _ _ Hseg).
  destruct (Z.eqb_spec h' h) as [->|]; [|done].
  rewrite Hseg. cbn. by rewrite Hsame.
Qed.

(** *** The operations on a routed key *)

Lemma Set_routes s k v h seg :
  routes s k h seg ->
  Set_ s k v = Ok (withSegment s h (Gomap.assign seg k v)).
Proof.
  intros (Hk & Hmu & Hseg). unfold Set_, lock, unlock.
  rewrite Hk. cbn. rewrite Hmu. cbn. rewrite Hseg. cbn.
  by rewrite ?Hmu.
Qed.

Lemma Set_Ok s k v s' :
  Set_ s k v = Ok s' ->
  exists h seg, routes s k h seg
                /\ s' = withSegment s h (Gomap.assign seg k v).
Proof.
  unfold Set_, lock, unlock, routes.
  destruct (Inthash.Get (hash s) k) as [h|]; cbn; [|discriminate].
  destruct (index (mutex s) h) as [mu|] eqn:Hmu; cbn; [|discriminate].
  destruct mu.
  destruct (index (segment s) h) as [seg|] eqn:Hseg; cbn; [|discriminate].
  intros [= <-]. by exists h, seg.
Qed.

Lemma DeleteConditional_routes {C : Type} s k
    (calculate : V -> C -> bool * C) (c : C) h seg :
  routes s k h seg ->
  DeleteConditional s k calculate c =
  match Gomap.lookup seg k with
  | Some v =>
      Ok (if fst (calculate v c)
          then withSegment s h (Gomap.delete seg k) else s,
          (v, false), snd (calculate v c))
  | None => Ok (s, (zero, false), c)
  end.
Proof.
  intros (Hk & Hmu & Hseg). unfold DeleteConditional, lock, unlock.
  rewrite Hk. cbn. rewrite Hmu. cbn. rewrite Hseg. cbn.
  destruct (Gomap.lookup seg k) as [v|]; [|by rewrite ?Hmu].
  destruct (calculate v c) as [[] c']; cbn; by rewrite ?Hmu.
Qed.

Lemma GetOrSet_routes {C : Type} s k (calculate : C -> V * C) (c : C)
    h seg :
  routes s k h seg ->
  GetOrSet s k calculate c =
  match Gomap.lookup seg k with
  | Some v => Ok (s, (v, false), c)
  | None =>
      Ok (withSegment s h (Gomap.assign seg k (fst (calculate c))),
          (fst (calculate c), true), snd (calculate c))
  end.
Proof.
  intros Hr. unfold GetOrSet. rewrite (routes_Get _ _ _ _ Hr).
  destruct Hr as (Hk & Hmu & Hseg). unfold answer, lock, unlock.
  destruct (Gomap.lookup seg k) as [v|] eqn:Hl; cbn; [done|].
  rewrite Hk. cbn. rewrite Hmu. cbn. rewrite Hseg. cbn. rewrite Hl.
  destruct (calculate c) as [v c']; cbn. by rewrite ?Hmu.
Qed.

Lemma GetAndDelete_routes s k h seg :
  routes s k h seg ->
  GetAndDelete s k =
  match Gomap.lookup seg k with
  | Some v => Ok (withSegment s h (Gomap.delete seg k), (v, true))
  | None => Ok (s, (zero, false))
  end.
Proof.
  intros (Hk & Hmu & Hseg). unfold GetAndDelete, lock, unlock.
  rewrite Hk. cbn. rewrite Hmu. cbn. rewrite Hseg. cbn.
  destruct (Gomap.lookup seg k) as [v|]; cbn; by rewrite ?Hmu.
Qed.

Lemma Update_routes {C : Type} s k (d : V)
    (calculate : V -> C -> V * C) (c : C) h seg :
  routes s k h seg ->
  let arg := match Gomap.lookup seg k with Some v => v | None => d end in
  Update s k d calculate c =
  Ok (withSegment s h (Gomap.assign seg k (fst (calculate arg c))),
      (fst (calculate arg c),
       match Gomap.lookup seg k with Some _ => false | None => true end),
      snd (calculate arg c)).
Proof.
  intros (Hk & Hmu & Hseg). unfold Update, lock, unlock.
  rewrite Hk. cbn. rewrite Hmu. cbn. rewrite Hseg. cbn.
  destruct (Gomap.lookup seg k) as [v|]; cbn;
    [destruct (calculate v c) as [x c']|destruct (calculate d c) as [x c']];
    cbn; by rewrite ?Hmu.
Qed.

Lemma UpdateExisting_routes {C : Type} s k
    (calculate : V -> C -> V * C) (c : C) h seg :
  routes s k h seg ->
  UpdateExisting s k calculate c =
  match Gomap.lookup seg k with
  | Some v =>
      Ok (withSegment s h (Gomap.assign seg k (fst (calculate v c))),
          (fst (calculate v c), true), snd (calculate v c))
  | None => Ok (s, (zero, false), c)
  end.
Proof.
  intros (Hk & Hmu & Hseg). unfold UpdateExisting, lock, unlock.
  rewrite Hk. cbn. rewrite Hmu. cbn. rewrite Hseg. cbn.
  destruct (Gomap.lookup seg k) as [v|]; cbn; [|by rewrite ?Hmu].
  destruct (calculate v c) as [x c']; cbn; by rewrite ?Hmu.
Qed.

End Facts.

End SegmentedmapFacts.

(** ** [Delete] *)

Module DeleteFacts.
Import Inthash Gomap GomapFacts InthashFacts Segmentedmap SegmentedmapFacts.

#[local] Arguments index : simpl never.
#[local] Arguments Inthash.Get : simpl never.

Lemma bind_Ok {A B : Type} (r : result A) (k : A -> result B) (b : B) :
  bind r k = Ok b -> exists a, r = Ok a /\ k a = Ok b.
Proof. destruct r as [a|]; cbn; [eauto|discriminate]. Qed.

Section Facts.
Context {V : Type} `{Zero V}.
Implicit Types (s : Map V) (k : Key) (v : V) (h : Z) (seg : Gomap.t V).

(** The grouping *)

Lemma groupKeys_Ok (hs : Hash) (keys : list Key)
    (acc hashes : gmap Z (list Key)) :
  groupKeys hs keys acc = Ok hashes ->
  (forall h, default [] (hashes !! h)
             = default [] (acc !! h) ++ List.filter (route_is hs h) keys)
  /\ Forall (fun k => exists i, Inthash.Get hs k = Ok i) keys
  /\ ((forall h ks, acc !! h = Some ks -> ks <> []) ->
      forall h ks, hashes !! h = Some ks -> ks <> []).
Proof.
  revert acc. induction keys as [|k keys IH]; intros acc; cbn.
  - intros [= ->]. split; [|split]; [|constructor|done].
    intros h. by rewrite app_nil_r.
  - destruct (Inthash.Get hs k) as [i|] eqn:Hk; cbn; [|discriminate].
    intros Hg. destruct (IH _ Hg) as (Hlook & Hall & Hne).
    split; [|split].
    + intros h. rewrite Hlook. unfold route_is at 2. rewrite Hk.
      destruct (Z.eqb_spec i h) as [->|Hih].
      * rewrite lookup_insert_eq. cbn. by rewrite <- app_assoc.
      * by rewrite lookup_insert_ne.
    + constructor; [eauto|done].
    + intros Hacc. apply Hne. intros h ks.
      destruct (Z.eq_dec i h) as [->|Hih].
      * rewrite lookup_insert_eq. intros [= <-].
        by destruct (default [] (acc !! h)).
      * rewrite lookup_insert_ne by done. apply Hacc.
Qed.

Lemma groupKeys_total (hs : Hash) (keys : list Key)
    (acc : gmap Z (list Key)) :
  Forall (fun k => exists i, Inthash.Get hs k = Ok i) keys ->
  exists hashes, groupKeys hs keys acc = Ok hashes.
Proof.
  intros Hall. revert acc.
  induction Hall as [|k keys [i Hk] _ IH]; intros acc; cbn; [eauto|].
  rewrite Hk. cbn. apply IH.
Qed.

(** The groups of a grouping hold the listed keys, each under its
    segment. *)
Lemma groupKeys_groups (hs : Hash) (keys : list Key)
    (hashes : gmap Z (list Key)) (h : Z) (ks : list Key) :
  groupKeys hs keys ∅ = Ok hashes ->
  hashes !! h = Some ks ->
  ks = List.filter (route_is hs h) keys /\ ks <> [].
Proof.
  intros Hg Hh. destruct (groupKeys_Ok _ _ _ _ Hg) as (Hlook & _ & Hne).
  split.
  - specialize (Hlook h). rewrite Hh, lookup_empty in Hlook. done.
  - apply (Hne ltac:(intros ? ?; by rewrite lookup_empty) h ks Hh).
Qed.

Lemma groupKeys_grouped (hs : Hash) (keys : list Key)
    (hashes : gmap Z (list Key)) (h : Z) (k : Key) :
  groupKeys hs keys ∅ = Ok hashes ->
  In k keys -> Inthash.Get hs k = Ok h ->
  exists ks, hashes !! h = Some ks /\ In k ks.
Proof.
  intros Hg Hin Hk. destruct (groupKeys_Ok _ _ _ _ Hg) as (Hlook & _ & _).
  specialize (Hlook h). rewrite lookup_empty in Hlook. cbn in Hlook.
  assert (Hk' : In k (List.filter (route_is hs h) keys)).
  { apply filter_In. split; [done|]. unfold route_is. rewrite Hk.
    apply Z.eqb_refl. }
  destruct (hashes !! h) as [ks|]; cbn in Hlook.
  - exists ks. by rewrite Hlook.
  - by rewrite <- Hlook in Hk'.
Qed.

(** The two loops *)

Lemma deleteKeys_Ok s h (ks : list Key) s' :
  deleteKeys s h ks = Ok s' ->
  mutex s' = mutex s /\ hash s' = hash s /\ segmented s' = segmented s
  /\ (ks <> [] -> exists seg, index (segment s) h = Ok seg)
  /\ forall i,
       segment s' !! i
       = (fun seg => if Nat.eqb (Z.to_nat h) i
                     then foldl Gomap.delete seg ks else seg)
           <$> segment s !! i.
Proof.
  revert s. induction ks as [|k ks IH]; intros s; cbn.
  - intros [= <-]. repeat split; [done|].
    intros i. destruct (segment s !! i); cbn; [|done].
    by destruct (Nat.eqb _ _).
  - intros Hd. apply bind_Ok in Hd as (seg & Hseg & Hd).
    destruct (IH _ Hd) as (Hmu & Hh & Hsd & _ & Hlook). cbn in *.
    repeat split; [done..|by eauto|].
    intros i. rewrite Hlook. apply index_Ok in Hseg as [Hh0 Hseg].
    destruct (Nat.eqb_spec (Z.to_nat h) i) as [<-|Hne].
    + rewrite list_lookup_insert_eq by (by eapply lookup_lt_Some).
      by rewrite Hseg.
    + by rewrite list_lookup_insert_ne.
Qed.

Lemma deleteKeys_total s h (ks : list Key) :
  (exists seg, index (segment s) h = Ok seg) ->
  exists s', deleteKeys s h ks = Ok s'.
Proof.
  revert s. induction ks as [|k ks IH]; intros s [seg Hseg]; cbn;
    [eauto|].
  rewrite Hseg. cbn. apply IH. cbn.
  rewrite (index_insert _ _ _ _ _ Hseg), Z.eqb_refl. eauto.
Qed.

Lemma in_range_lookup s s' h :
  mutex s' = mutex s ->
  (forall i, is_Some (segment s' !! i) <-> is_Some (segment s !! i)) ->
  in_range s h -> in_range s' h.
Proof.
  intros Hmu Hsome [Hm [seg [Hh Hseg]%index_Ok]]. split; [by rewrite Hmu|].
  destruct (proj2 (Hsome (Z.to_nat h))) as [seg' Hseg']; [eauto|].
  exists seg'. by apply index_Ok.
Qed.

Lemma deleteGroups_Ok s (groups : list (Z * list Key)) s' :
  deleteGroups s groups = Ok s' ->
  mutex s' = mutex s /\ hash s' = hash s /\ segmented s' = segmented s
  /\ Forall (fun g => snd g <> [] -> in_range s (fst g)) groups
  /\ forall i,
       segment s' !! i
       = (fun seg => foldl Gomap.delete seg (keys_for groups i))
           <$> segment s !! i.
Proof.
  revert s. induction groups as [|[h ks] groups IH]; intros s; cbn.
  - intros [= <-]. repeat split; [done|].
    intros i. by destruct (segment s !! i).
  - intros Hd. unfold lock, unlock in Hd.
    apply bind_Ok in Hd as ([] & Hlock & Hd).
    apply bind_Ok in Hlock as ([] & Hmu0 & _).
    apply bind_Ok in Hd as (s1 & Hkeys & Hd).
    apply bind_Ok in Hd as ([] & _ & Hd).
    destruct (deleteKeys_Ok _ _ _ _ Hkeys)
      as (Hmu1 & Hh1 & Hsd1 & Hseg1 & Hlook1).
    destruct (IH _ Hd) as (Hmu & Hh & Hsd & Hall & Hlook).
    assert (Hsome : forall i,
               is_Some (segment s !! i) <-> is_Some (segment s1 !! i)).
    { intros i. rewrite Hlook1. by rewrite fmap_is_Some. }
    repeat split; [congruence..| |].
    + constructor; [by intros Hks; split; auto|].
      eapply Forall_impl; [exact Hall|]. cbn. intros g Hg Hne.
      apply (in_range_lookup s1 s); [done|intros; by rewrite Hsome|].
      by apply Hg.
    + intros i. rewrite Hlook, Hlook1.
      destruct (segment s !! i) as [seg|]; cbn; [|done].
      rewrite foldl_app. by destruct (Nat.eqb _ _).
Qed.

Lemma deleteGroups_total s (groups : list (Z * list Key)) :
  Forall (fun g => in_range s (fst g)) groups ->
  exists s', deleteGroups s groups = Ok s'.
Proof.
  revert s. induction groups as [|[h ks] groups IH]; intros s Hall; cbn;
    [eauto|].
  apply Forall_cons in Hall as [[Hmu Hseg] Hall]. cbn in *.
  unfold lock, unlock. rewrite Hmu. cbn.
  destruct (deleteKeys_total s h ks Hseg) as [s1 Hs1]. rewrite Hs1. cbn.
  destruct (deleteKeys_Ok _ _ _ _ Hs1) as (Hmu1 & _ & _ & _ & Hlook1).
  rewrite Hmu1, Hmu. cbn. apply IH.
  eapply Forall_impl; [exact Hall|]. cbn. intros g Hg.
  apply (in_range_lookup s s1); [done| |done].
  intros i. rewrite Hlook1. by rewrite fmap_is_Some.
Qed.

(** [Delete] as a whole *)

Lemma keys_for_groups (order : list (Z * list Key) -> list (Z * list Key))
    (hs : Hash) (keys : list Key) (hashes : gmap Z (list Key))
    (i : nat) (k : Key) :
  rearranges order ->
  groupKeys hs keys ∅ = Ok hashes ->
  In k (keys_for (order (map_to_list hashes)) i)
  <-> In k keys /\ route_is hs (Z.of_nat i) k = true.
Proof.
  intros Hord Hg. unfold keys_for. rewrite in_flat_map. split.
  - intros ([h ks] & Hin & Hk). cbn in Hk.
    destruct (Nat.eqb_spec (Z.to_nat h) i) as [<-|]; [|done].
    apply list_elem_of_In in Hin. rewrite (Hord _) in Hin.
    apply elem_of_map_to_list in Hin.
    destruct (groupKeys_groups _ _ _ _ _ Hg Hin) as [-> _].
    apply filter_In in Hk as [Hk Hr]. split; [done|].
    unfold route_is in *.
    destruct (Inthash.Get hs k) as [j|] eqn:Hj; [|done].
    apply Z.eqb_eq in Hr as ->.
    pose proof (Get_nonneg _ _ _ Hj). apply Z.eqb_eq. lia.
  - intros [Hin Hr]. unfold route_is in Hr.
    destruct (Inthash.Get hs k) as [j|] eqn:Hj; [|done].
    apply Z.eqb_eq in Hr as ->.
    destruct (groupKeys_grouped _ _ _ _ _ Hg Hin Hj) as (ks & Hks & Hk).
    exists (Z.of_nat i, ks). split.
    + apply list_elem_of_In. rewrite (Hord _).
      by apply elem_of_map_to_list.
    + cbn. by rewrite Nat2Z.id, Nat.eqb_refl.
Qed.

Lemma foldl_delete_less (order : list (Z * list Key) -> list (Z * list Key))
    (hs : Hash) (keys : list Key) (hashes : gmap Z (list Key))
    (i : nat) seg :
  rearranges order ->
  groupKeys hs keys ∅ = Ok hashes ->
  foldl Gomap.delete seg (keys_for (order (map_to_list hashes)) i)
  = less hs keys i seg.
Proof.
  intros Hord Hg. rewrite foldl_delete. unfold less.
  apply filter_ext. intros e. f_equal.
  apply eq_true_iff_eq. rewrite !existsb_exists. split.
  - intros (k & Hin & Hk).
    apply (keys_for_groups order hs keys hashes i k Hord Hg) in Hin
      as [Hin Hr].
    exists k. by rewrite Hk, Hr.
  - intros (k & Hin & [Hk Hr]%andb_prop).
    exists k. split; [|done].
    by apply (keys_for_groups order hs keys hashes i k Hord Hg).
Qed.

Lemma DeleteIn_Ok (order : list (Z * list Key) -> list (Z * list Key))
    s (keys : list Key) s' :
  rearranges order ->
  DeleteIn order s keys = Ok s' ->
  s' = without s keys
  /\ Forall (fun k => exists r, Get s k = Ok r) keys.
Proof.
  intros Hord Hd. unfold DeleteIn in Hd.
  apply bind_Ok in Hd as (hashes & Hg & Hd).
  destruct (deleteGroups_Ok _ _ _ Hd) as (Hmu & Hh & Hsd & Hall & Hlook).
  split.
  - destruct s' as [segs' mu' hs' sd']. cbn in *. subst.
    unfold without. f_equal.
    apply list_eq. intros i. rewrite Hlook, list_lookup_imap.
    destruct (segment s !! i) as [seg|]; cbn; [|done].
    f_equal. by apply foldl_delete_less.
  - destruct (groupKeys_Ok _ _ _ _ Hg) as (_ & Hrouted & _).
    rewrite List.Forall_forall in Hrouted |- *. intros k Hin.
    destruct (Hrouted k Hin) as [h Hk].
    destruct (groupKeys_grouped _ _ _ _ _ Hg Hin Hk) as (ks & Hks & Hkin).
    rewrite List.Forall_forall in Hall.
    destruct (Hall (h, ks)) as [Hm [seg Hseg]].
    + apply list_elem_of_In. rewrite (Hord _).
      by apply elem_of_map_to_list.
    + cbn. by destruct ks.
    + exists (answer seg k). apply (routes_Get s k h seg).
      cbn in *. by repeat split.
Qed.

Lemma DeleteIn_total (order : list (Z * list Key) -> list (Z * list Key))
    s (keys : list Key) :
  rearranges order ->
  Forall (fun k => exists r, Get s k = Ok r) keys ->
  exists s', DeleteIn order s keys = Ok s'.
Proof.
  intros Hord Hall. unfold DeleteIn.
  assert (Hrouted : Forall (fun k => exists h seg, routes s k h seg) keys).
  { eapply Forall_impl; [exact Hall|]. cbn. intros k [r Hr].
    apply Get_routes in Hr as (h & seg & Hr & _). eauto. }
  destruct (groupKeys_total (hash s) keys ∅) as [hashes Hg].
  { eapply Forall_impl; [exact Hrouted|]. cbn.
    intros k (h & seg & Hk & _). eauto. }
  rewrite Hg. cbn. apply deleteGroups_total.
  apply List.Forall_forall. intros [h ks] Hin. cbn.
  apply list_elem_of_In in Hin. rewrite (Hord _) in Hin.
  apply elem_of_map_to_list in Hin.
  destruct (groupKeys_groups _ _ _ _ _ Hg Hin) as [-> Hne].
  destruct (List.filter (route_is (hash s) h) keys) as [|k ks] eqn:Hf;
    [done|].
  assert (Hk : In k (List.filter (route_is (hash s) h) keys))
    by (rewrite Hf; by left).
  apply filter_In in Hk as [Hk Hr].
  rewrite List.Forall_forall in Hrouted.
  destruct (Hrouted k Hk) as (h' & seg & Hk' & Hmu & Hseg).
  unfold route_is in Hr. rewrite Hk' in Hr. apply Z.eqb_eq in Hr as ->.
  split; eauto.
Qed.

(** What [Get] finds once the listed keys are out *)

Lemma index_imap {A B : Type} (f : nat -> A -> B) (l : list A) (i : Z) :
  index (imap f l) i
  = match index l i with
    | Ok x => Ok (f (Z.to_nat i) x)
    | Panic p => Panic p
    end.
Proof.
  unfold index. rewrite length_imap, list_lookup_imap.
  destruct (i <? 0); [done|]. by destruct (l !! Z.to_nat i).
Qed.

Lemma lookup_less_other (hs : Hash) (keys : list Key) (i : nat) seg k :
  existsb (fun k' => Gomap.key_eqb k' k) keys = false ->
  Gomap.lookup (less hs keys i seg) k = Gomap.lookup seg k.
Proof.
  intros Hnone. unfold less.
  induction seg as [|[k0 v0] seg IH]; cbn; [done|].
  match goal with |- context [negb ?b] => destruct b eqn:Hex0 end; cbn.
  - destruct (key_eqb k0 k) eqn:E; [|apply IH].
    apply existsb_exists in Hex0 as (k1 & Hin & [E1 _]%andb_prop).
    cbn in E1. rewrite key_eqb_sym in E1.
    assert (existsb (fun k' => key_eqb k' k) keys = true); [|congruence].
    apply existsb_exists. exists k1. split; [done|].
    by apply (key_eqb_trans k1 k0 k).
  - by rewrite IH.
Qed.

Lemma Get_without s (keys : list Key) k :
  Get (without s keys) k
  = r <- Get s k ;;
    Ok (if existsb (fun k' => Gomap.key_eqb k' k) keys
        then match Inthash.Get (hash s) k with
             | Ok h =>
                 match index (segment s) h with
                 | Ok seg => answer (less (hash s) keys (Z.to_nat h) seg) k
                 | Panic _ => r
                 end
             | Panic _ => r
             end
        else r).
Proof.
  unfold Get, rLock, rUnlock, without. cbn.
  destruct (Inthash.Get (hash s) k) as [h|] eqn:Hk; cbn; [|done].
  destruct (index (mutex s) h) as [mu|] eqn:Hmu; cbn; [|done].
  rewrite index_imap.
  destruct (index (segment s) h) as [seg|] eqn:Hseg; cbn; [|done].
  fold (answer (less (hash s) keys (Z.to_nat h) seg) k).
  fold (answer seg k).
  destruct (existsb _ keys) eqn:Hex; [done|].
  f_equal. unfold answer. by rewrite lookup_less_other.
Qed.

Lemma Get_without_other s (keys : list Key) k :
  Forall (fun k' => Gomap.key_eqb k' k = false) keys ->
  Get (without s keys) k = Get s k.
Proof.
  intros Hall. rewrite Get_without.
  assert (existsb (fun k' => key_eqb k' k) keys = false) as ->.
  { apply not_true_is_false. intros (k' & Hin & Hk)%existsb_exists.
    rewrite List.Forall_forall in Hall. by rewrite (Hall k' Hin) in Hk. }
  by destruct (Get s k).
Qed.

Lemma lookup_less_listed (hs : Hash) (keys : list Key) (h : Z) seg k :
  0 <= h -> In k keys -> Inthash.Get hs k = Ok h ->
  Gomap.lookup (less hs keys (Z.to_nat h) seg) k = None.
Proof.
  intros Hh Hin Hk. unfold less.
  induction seg as [|[k0 v0] seg IH]; cbn; [done|].
  match goal with |- context [negb ?b] => destruct b eqn:Hex end; cbn;
    [done|].
  destruct (key_eqb k0 k) eqn:E; [|done].
  assert (existsb (fun k1 => key_eqb k0 k1
                             && route_is hs (Z.of_nat (Z.to_nat h)) k1)
            keys = true); [|congruence].
  apply existsb_exists. exists k. split; [done|].
  rewrite E. unfold route_is. rewrite Hk, Z2Nat.id by done.
  by rewrite Z.eqb_refl.
Qed.

Lemma Get_without_listed s (keys : list Key) k r :
  In k keys -> Get s k = Ok r ->
  Get (without s keys) k = Ok (zero, false).
Proof.
  intros Hin Hr. rewrite Get_without, Hr. cbn.
  apply Get_routes in Hr as (h & seg & (Hk & Hmu & Hseg) & ->).
  rewrite Hk, Hseg.
  pose proof (Get_nonneg _ _ _ Hk) as Hh.
  unfold answer at 1.
  rewrite (lookup_less_listed _ _ _ _ _ Hh Hin Hk).
  destruct (existsb _ keys) eqn:Hex; [done|].
  unfold answer. destruct (Gomap.lookup seg k) as [v|] eqn:Hl; [|done].
  assert (existsb (fun k' => key_eqb k' k) keys = true); [|congruence].
  apply existsb_exists. exists k. split; [done|].
  by apply (lookup_Some_refl seg k v).
Qed.

End Facts.

End DeleteFacts.

(** ** Sequences of calls *)

Module CallFacts.
Import Inthash Gomap GomapFacts InthashFacts Segmentedmap SegmentedmapFacts
  DeleteFacts.

#[local] Arguments index : simpl never.
#[local] Arguments Inthash.Get : simpl never.

(** An operation that has got past its first three steps has a segment
    for its key. *)
Ltac open_call Hc :=
  let h := fresh "h" in
  let seg := fresh "seg" in
  let mu := fresh "mu" in
  let Hk := fresh "Hk" in
  let Hl := fresh "Hl" in
  let Hmu := fresh "Hmu" in
  let Hseg := fresh "Hseg" in
  unfold lock in Hc;
  apply bind_Ok in Hc as (h & Hk & Hc);
  apply bind_Ok in Hc as ([] & Hl & Hc);
  apply bind_Ok in Hl as (mu & Hmu & _);
  apply bind_Ok in Hc as (seg & Hseg & _);
  destruct mu;
  exists h, seg; by repeat split.

Section Facts.
Context {V : Type} `{Zero V}.
Implicit Types (s : Map V) (k : Key) (v : V) (h : Z) (seg : Gomap.t V).

Lemma DeleteConditional_Ok {C : Type} s k
    (calculate : V -> C -> bool * C) (c : C) r :
  DeleteConditional s k calculate c = Ok r ->
  exists h seg, routes s k h seg.
Proof. intros Hc. unfold DeleteConditional in Hc. open_call Hc. Qed.

Lemma GetAndDelete_Ok s k r :
  GetAndDelete s k = Ok r -> exists h seg, routes s k h seg.
Proof. intros Hc. unfold GetAndDelete in Hc. open_call Hc. Qed.

Lemma Update_Ok {C : Type} s k (d : V)
    (calculate : V -> C -> V * C) (c : C) r :
  Update s k d calculate c = Ok r -> exists h seg, routes s k h seg.
Proof. intros Hc. unfold Update in Hc. open_call Hc. Qed.

Lemma UpdateExisting_Ok {C : Type} s k
    (calculate : V -> C -> V * C) (c : C) r :
  UpdateExisting s k calculate c = Ok r ->
  exists h seg, routes s k h seg.
Proof. intros Hc. unfold UpdateExisting in Hc. open_call Hc. Qed.

Lemma GetOrSet_Ok {C : Type} s k (calculate : C -> V * C) (c : C) r :
  GetOrSet s k calculate c = Ok r -> exists h seg, routes s k h seg.
Proof.
  intros Hc. unfold GetOrSet in Hc.
  apply bind_Ok in Hc as (a & Ha & _).
  apply Get_routes in Ha as (h & seg & Hr & _). eauto.
Qed.

(** What a write under another key leaves alone *)

Lemma Get_assign_other s k' h seg (x : V) k :
  routes s k' h seg ->
  Gomap.key_eqb k' k = false ->
  Get (withSegment s h (Gomap.assign seg k' x)) k = Get s k.
Proof.
  intros (_ & _ & Hseg) Hne.
  apply (Get_withSegment_other s h seg); [done|].
  intros _. by apply lookup_assign_ne.
Qed.

Lemma Get_delete_other s k' h seg k :
  routes s k' h seg ->
  Gomap.key_eqb k' k = false ->
  Get (withSegment s h (Gomap.delete seg k')) k = Get s k.
Proof.
  intros (_ & _ & Hseg) Hne.
  apply (Get_withSegment_other s h seg); [done|].
  intros _. by apply lookup_delete_ne.
Qed.

Lemma Get_assign_same s k h seg (x : V) :
  routes s k h seg ->
  Gomap.key_eqb k k = true ->
  Get (withSegment s h (Gomap.assign seg k x)) k = Ok (x, true).
Proof.
  intros Hr Hk.
  pose proof (routes_withSegment s k h seg (Gomap.assign seg k x)
                k h seg Hr Hr) as Hr'.
  rewrite Z.eqb_refl in Hr'.
  rewrite (routes_Get _ _ _ _ Hr'). unfold answer.
  by rewrite lookup_assign_eq.
Qed.

Lemma Get_delete_same s k h seg :
  routes s k h seg ->
  Get (withSegment s h (Gomap.delete seg k)) k = Ok (zero, false).
Proof.
  intros Hr.
  pose proof (routes_withSegment s k h seg (Gomap.delete seg k)
                k h seg Hr Hr) as Hr'.
  rewrite Z.eqb_refl in Hr'.
  rewrite (routes_Get _ _ _ _ Hr'). unfold answer.
  by rewrite lookup_delete_eq.
Qed.


(** A call that spares [k] leaves what [Get] finds under [k]. *)
Lemma call_spares {C R : Type} s (c : C) (op : Op V C R) s' c' k v :
  Get s k = Ok (v, true) ->
  spares k op ->
  call (s, c) op = Ok (s', c') ->
  Get s' k = Ok (v, true).
Proof.
  intros HGet [Hw Hord] Hcall.
  destruct op as [k' v'|k'|order keys|k' f| | | |k' f|k'|k' d f|k' f|k' f|f];
    cbn in Hcall, Hw;
    apply bind_Ok in Hcall as (r & Hr & Hcall);
    injection Hcall as <- <-;
    try exact HGet;
    try (apply Forall_cons in Hw as [Hne _]).
  - apply Set_Ok in Hr as (h & seg & Hroutes & ->).
    by rewrite (Get_assign_other _ _ _ _ _ _ Hroutes Hne).
  - apply (DeleteIn_Ok order) in Hr as [-> _]; [|done].
    by rewrite Get_without_other.
  - destruct (DeleteConditional_Ok _ _ _ _ _ Hr) as (h & seg & Hroutes).
    rewrite (DeleteConditional_routes _ _ _ _ _ _ Hroutes) in Hr.
    destruct (Gomap.lookup seg k') as [x|]; injection Hr as <-; cbn;
      [|done].
    destruct (fst (f x c)); [|done].
    by rewrite (Get_delete_other _ _ _ _ _ Hroutes Hne).
  - destruct (GetOrSet_Ok _ _ _ _ _ Hr) as (h & seg & Hroutes).
    rewrite (GetOrSet_routes _ _ _ _ _ _ Hroutes) in Hr.
    destruct (Gomap.lookup seg k') as [x|] eqn:Hl; injection Hr as <-;
      cbn; [done|].
    rewrite <- HGet.
    apply (Get_withSegment_other s h seg); [apply Hroutes|].
    intros Hk.
    destruct (Gomap.key_eqb k' k) eqn:E; [|by apply lookup_assign_ne].
    apply Get_routes in HGet as (h0 & seg0 & (Hk0 & _ & Hseg0) & Hans).
    destruct Hroutes as (_ & _ & Hseg).
    assert (h0 = h) as -> by congruence.
    assert (seg0 = seg) as -> by congruence.
    unfold answer in Hans.
    rewrite <- (lookup_eqv seg k' k E), Hl in Hans. discriminate.
  - destruct (GetAndDelete_Ok _ _ _ Hr) as (h & seg & Hroutes).
    rewrite (GetAndDelete_routes _ _ _ _ Hroutes) in Hr.
    destruct (Gomap.lookup seg k') as [x|]; injection Hr as <-; cbn;
      [|done].
    by rewrite (Get_delete_other _ _ _ _ _ Hroutes Hne).
  - destruct (Update_Ok _ _ _ _ _ _ Hr) as (h & seg & Hroutes).
    rewrite (Update_routes _ _ _ _ _ _ _ Hroutes) in Hr.
    injection Hr as <-. cbn.
    by rewrite (Get_assign_other _ _ _ _ _ _ Hroutes Hne).
  - destruct (UpdateExisting_Ok _ _ _ _ _ Hr) as (h & seg & Hroutes).
    rewrite (UpdateExisting_routes _ _ _ _ _ _ Hroutes) in Hr.
    destruct (Gomap.lookup seg k') as [x|]; injection Hr as <-; cbn;
      [|done].
    by rewrite (Get_assign_other _ _ _ _ _ _ Hroutes Hne).
Qed.

Lemma calls_spare {C R : Type} (ops : list (Op V C R)) s (c : C) st k v :
  Get s k = Ok (v, true) ->
  Forall (spares k) ops ->
  calls (s, c) ops = Ok st ->
  Get (fst st) k = Ok (v, true).
Proof.
  intros HGet Hall. revert s c HGet.
  induction Hall as [|op ops Hop _ IH]; intros s c HGet; cbn.
  - by intros [= <-].
  - intros Hc. apply bind_Ok in Hc as ([s1 c1] & Hcall & Hc).
    apply (IH s1 c1); [|done].
    by apply (call_spares s c op s1 c1).
Qed.

End Facts.

End CallFacts.

(** ** Construction *)

Module ConstructionFacts.
Import Inthash Gomap GomapFacts InthashFacts Segmentedmap SegmentedmapFacts
  DeleteFacts Fixtures.
Local Open Scope string_scope.

#[local] Arguments index : simpl never.
#[local] Arguments Inthash.Get : simpl never.

Example test_map_built :
  (s <- NewSegmentedMap 2 1 ;; Set_ s (KInt 1) "value1") = Ok test_map.
Proof. vm_compute. reflexivity. Qed.

Section Facts.
Context {V : Type} `{Zero V}.
Implicit Types (s : Map V) (k : Key) (v : V) (h : Z) (seg : Gomap.t V).

Lemma NewSegmentedMap_Ok (n capacity : Z) :
  0 <= n ->
  NewSegmentedMap (V := V) n capacity
  = Ok {| segment := replicate (Z.to_nat n) [];
          mutex := replicate (Z.to_nat n) mkRWMutex;
          hash := NewHash n;
          segmented := if n >? 1 then true else false |}.
Proof.
  intros Hn. unfold NewSegmentedMap, makeSlice.
  destruct (Z.ltb_spec n 0); [lia|]. reflexivity.
Qed.

Lemma NewSegmentedMap_negative (n capacity : Z) :
  n < 0 -> NewSegmentedMap (V := V) n capacity = Panic MakesliceLenOutOfRange.
Proof.
  intros Hn. unfold NewSegmentedMap, makeSlice.
  destruct (Z.ltb_spec n 0); [reflexivity|lia].
Qed.

(** On a map made for at least one segment every key the router
    returns on has its segment, which is empty. *)
Lemma NewSegmentedMap_routes (n capacity : Z) s k :
  1 <= n ->
  NewSegmentedMap n capacity = Ok s ->
  routed k = true ->
  exists h, routes s k h [].
Proof.
  intros Hn Hs Hk. rewrite NewSegmentedMap_Ok in Hs by lia.
  injection Hs as <-.
  destruct (Get_routed (NewHash n) k Hk) as [h Hh].
  pose proof (Get_range n (NewHash n) k h eq_refl Hh) as Hr.
  exists h. unfold routes. cbn. rewrite !index_replicate.
  destruct (Z.leb_spec 0 h), (Z.ltb_spec h (Z.of_nat (Z.to_nat n)));
    try lia; by cbn.
Qed.

(** Taking one key out of its segment is [without] on that key. *)
Lemma filter_all {A : Type} (f : A -> bool) (l : list A) :
  (forall x, In x l -> f x = true) -> List.filter f l = l.
Proof.
  induction l as [|x l IH]; cbn; [done|]. intros Hall.
  rewrite (Hall x) by (by left). f_equal. apply IH.
  intros y Hy. apply Hall. by right.
Qed.

Lemma withSegment_delete_without s k h seg :
  routes s k h seg ->
  withSegment s h (Gomap.delete seg k) = without s [k].
Proof.
  intros (Hk & _ & [Hh Hseg]%index_Ok). unfold withSegment, without.
  f_equal. apply list_eq. intros i. rewrite list_lookup_imap.
  destruct (decide (i = Z.to_nat h)) as [->|Hne].
  - rewrite list_lookup_insert_eq by (by eapply lookup_lt_Some).
    rewrite Hseg. cbn. f_equal. unfold Gomap.delete, less.
    apply filter_ext. intros e. cbn.
    unfold route_is. rewrite Hk, Z2Nat.id, Z.eqb_refl by done.
    by rewrite andb_true_r, orb_false_r.
  - rewrite list_lookup_insert_ne by done.
    destruct (segment s !! i) as [seg'|]; cbn; [|done].
    f_equal. unfold less. symmetry. apply filter_all.
    intros e _. cbn. unfold route_is. rewrite Hk.
    destruct (Z.eqb_spec h (Z.of_nat i)); [lia|].
    by rewrite andb_false_r.
Qed.

Lemma In_lookup seg (e : Key * V) k :
  In e seg -> Gomap.key_eqb (fst e) k = true ->
  exists v, Gomap.lookup seg k = Some v.
Proof.
  induction seg as [|[k0 v0] seg IH]; cbn; [done|].
  intros [<-|Hin] Hk.
  - cbn in Hk. rewrite Hk. eauto.
  - destruct (key_eqb k0 k); eauto.
Qed.

(** Taking out keys that are not there changes nothing. *)
Lemma without_absent s (keys : list Key) :
  Forall (fun k => exists x, Get s k = Ok (x, false)) keys ->
  without s keys = s.
Proof.
  intros Hall. destruct s as [segs mu hs sd]. unfold without. cbn.
  f_equal. apply list_eq. intros i. rewrite list_lookup_imap.
  destruct (segs !! i) as [seg|] eqn:Hi; cbn; [|done].
  f_equal. unfold less. apply filter_all. intros e He.
  apply negb_true_iff, not_true_is_false.
  intros (k & Hin & [Hek Hr]%andb_prop)%existsb_exists.
  rewrite List.Forall_forall in Hall.
  destruct (Hall k Hin) as [x Hx].
  apply Get_routes in Hx as (h & seg' & (Hk & _ & Hseg) & Hans).
  cbn in Hk, Hseg. unfold route_is in Hr. rewrite Hk in Hr.
  apply Z.eqb_eq in Hr as ->.
  apply index_Ok in Hseg as [_ Hseg]. rewrite Nat2Z.id in Hseg.
  assert (seg' = seg) as -> by congruence.
  destruct (In_lookup seg e k He Hek) as [v Hv].
  unfold answer in Hans. rewrite Hv in Hans. discriminate.
Qed.

End Facts.

End ConstructionFacts.

(** ** The maps that the constructor and the operations build *)

Module BuiltFacts.
Import Inthash Gomap GomapFacts InthashFacts Segmentedmap SegmentedmapFacts
  DeleteFacts CallFacts ConstructionFacts.

#[local] Arguments index : simpl never.
#[local] Arguments Inthash.Get : simpl never.

Section Facts.
Context {V : Type} `{Zero V}.
Implicit Types (s : Map V) (k : Key) (v : V) (h : Z) (seg : Gomap.t V).

Lemma routes_without s (keys : list Key) k h seg :
  routes s k h seg ->
  routes (without s keys) k h (less (hash s) keys (Z.to_nat h) seg).
Proof.
  intros (Hk & Hmu & Hseg). unfold routes, without. cbn.
  split; [done|]. split; [done|]. by rewrite index_imap, Hseg.
Qed.

(** The router of a map is the same for the life of the map. *)
Lemma call_keeps_hash {C R : Type} s (c : C) (op : Op V C R) s' c' :
  call (s, c) op = Ok (s', c') -> hash s' = hash s.
Proof.
  intros Hcall.
  destruct op as [k' v'|k'|order keys|k' f| | | |k' f|k'|k' d f|k' f|k' f|f];
    cbn in Hcall;
    apply bind_Ok in Hcall as (r & Hr & Hcall);
    injection Hcall as <- <-;
    try reflexivity.
  - by apply Set_Ok in Hr as (h' & seg' & Hr' & ->).
  - unfold DeleteIn in Hr. apply bind_Ok in Hr as (hashes & _ & Hr).
    by destruct (deleteGroups_Ok _ _ _ Hr) as (_ & Hh & _).
  - destruct (DeleteConditional_Ok _ _ _ _ _ Hr) as (h' & seg' & Hr').
    rewrite (DeleteConditional_routes _ _ _ _ _ _ Hr') in Hr.
    destruct (Gomap.lookup seg' k') as [x|]; injection Hr as <-; cbn;
      [|done].
    by destruct (fst (f x c)).
  - destruct (GetOrSet_Ok _ _ _ _ _ Hr) as (h' & seg' & Hr').
    rewrite (GetOrSet_routes _ _ _ _ _ _ Hr') in Hr.
    by destruct (Gomap.lookup seg' k') as [x|]; injection Hr as <-.
  - destruct (GetAndDelete_Ok _ _ _ Hr) as (h' & seg' & Hr').
    rewrite (GetAndDelete_routes _ _ _ _ Hr') in Hr.
    by destruct (Gomap.lookup seg' k') as [x|]; injection Hr as <-.
  - destruct (Update_Ok _ _ _ _ _ _ Hr) as (h' & seg' & Hr').
    rewrite (Update_routes _ _ _ _ _ _ _ Hr') in Hr.
    by injection Hr as <-.
  - destruct (UpdateExisting_Ok _ _ _ _ _ Hr) as (h' & seg' & Hr').
    rewrite (UpdateExisting_routes _ _ _ _ _ _ Hr') in Hr.
    by destruct (Gomap.lookup seg' k') as [x|]; injection Hr as <-.
Qed.

(** No call takes the segment of a key away. *)
Lemma call_keeps_routes {C R : Type} s (c : C) (op : Op V C R) s' c' k h seg :
  routes s k h seg ->
  (match op with OpDelete order _ => rearranges order | _ => True end) ->
  call (s, c) op = Ok (s', c') ->
  exists seg', routes s' k h seg'.
Proof.
  intros Hroutes Hord Hcall.
  assert (Hwith : forall k' h' seg' m,
             routes s k' h' seg' ->
             exists seg0, routes (withSegment s h' m) k h seg0).
  { intros k' h' seg' m Hr'. eexists.
    apply (routes_withSegment s k' h' seg' m k h seg Hr' Hroutes). }
  destruct op as [k' v'|k'|order keys|k' f| | | |k' f|k'|k' d f|k' f|k' f|f];
    cbn in Hcall;
    apply bind_Ok in Hcall as (r & Hr & Hcall);
    injection Hcall as <- <-;
    try (by exists seg).
  - apply Set_Ok in Hr as (h' & seg' & Hr' & ->). by eapply Hwith.
  - apply (DeleteIn_Ok order) in Hr as [-> _]; [|done].
    eexists. by apply routes_without.
  - destruct (DeleteConditional_Ok _ _ _ _ _ Hr) as (h' & seg' & Hr').
    rewrite (DeleteConditional_routes _ _ _ _ _ _ Hr') in Hr.
    destruct (Gomap.lookup seg' k') as [x|]; injection Hr as <-; cbn;
      [|by exists seg].
    destruct (fst (f x c)); [by eapply Hwith|by exists seg].
  - destruct (GetOrSet_Ok _ _ _ _ _ Hr) as (h' & seg' & Hr').
    rewrite (GetOrSet_routes _ _ _ _ _ _ Hr') in Hr.
    destruct (Gomap.lookup seg' k') as [x|]; injection Hr as <-; cbn;
      [by exists seg|by eapply Hwith].
  - destruct (GetAndDelete_Ok _ _ _ Hr) as (h' & seg' & Hr').
    rewrite (GetAndDelete_routes _ _ _ _ Hr') in Hr.
    destruct (Gomap.lookup seg' k') as [x|]; injection Hr as <-; cbn;
      [by eapply Hwith|by exists seg].
  - destruct (Update_Ok _ _ _ _ _ _ Hr) as (h' & seg' & Hr').
    rewrite (Update_routes _ _ _ _ _ _ _ Hr') in Hr.
    injection Hr as <-. cbn. by eapply Hwith.
  - destruct (UpdateExisting_Ok _ _ _ _ _ Hr) as (h' & seg' & Hr').
    rewrite (UpdateExisting_routes _ _ _ _ _ _ Hr') in Hr.
    destruct (Gomap.lookup seg' k') as [x|]; injection Hr as <-; cbn;
      [by eapply Hwith|by exists seg].
Qed.

(** On a map constructed for at least one segment, and after any run of
    calls on it, [Get] returns on every key the router returns on. *)
Lemma Get_returns_on_built_maps {C R : Type} (n capacity : Z) s
    (ops : list (Op V C R)) (c : C) st k :
  1 <= n ->
  NewSegmentedMap n capacity = Ok s ->
  Forall (fun op => match op with
                    | OpDelete order _ => rearranges order
                    | _ => True
                    end) ops ->
  calls (s, c) ops = Ok st ->
  routed k = true ->
  exists r, Get (fst st) k = Ok r.
Proof.
  intros Hn Hs Hops Hcalls Hk.
  destruct (NewSegmentedMap_routes n capacity s k Hn Hs Hk) as [h Hr].
  assert (exists seg, routes (fst st) k h seg) as [seg Hseg].
  { clear Hs. generalize dependent (@nil (Key * V)).
    revert s c Hcalls.
    induction Hops as [|op ops Hop _ IH]; intros s c Hcalls seg Hr.
    - injection Hcalls as <-. eauto.
    - cbn in Hcalls. apply bind_Ok in Hcalls as ([s1 c1] & Hcall & Hcalls).
      destruct (call_keeps_routes s c op s1 c1 k h seg Hr Hop Hcall)
        as [seg1 Hr1].
      by apply (IH s1 c1 Hcalls seg1). }
  exists (answer seg k). by apply (routes_Get _ _ h).
Qed.

End Facts.

End BuiltFacts.

(** ** The operations, by what [Get] returns on their key *)

Module ByGetFacts.
Import Inthash Gomap GomapFacts InthashFacts Segmentedmap SegmentedmapFacts
  DeleteFacts CallFacts ConstructionFacts.

#[local] Arguments index : simpl never.
#[local] Arguments Inthash.Get : simpl never.

Section Facts.
Context {V : Type} `{Zero V}.
Implicit Types (s : Map V) (k : Key) (v : V).





End Facts.

End ByGetFacts.

(** ** The operations of the map *)

Module MapClaims.
Import Inthash Gomap GomapFacts InthashFacts Segmentedmap SegmentedmapFacts
  DeleteFacts CallFacts ConstructionFacts.
Local Open Scope string_scope.

#[local] Arguments index : simpl never.
#[local] Arguments Inthash.Get : simpl never.

Section Claims.
Context {V : Type} `{Zero V}.
Implicit Types (s : Map V) (k : Key) (v : V).

(** C3.  A map constructed with the segment count 0 has no segment and
    no mutex, while its router sends every key to the index 0: [Set],
    [Get] and [Keys] panic on it, indexing an empty slice.  With the
    count 1 there is one segment and [Set] returns.  A negative count
    makes the constructor panic. *)
Theorem count_0_makes_no_segment (capacity : Z) :
  NewSegmentedMap (V := V) 0 capacity
  = Ok {| segment := []; mutex := []; hash := NewHash 0;
          segmented := false |}
  /\ (forall s, NewSegmentedMap 0 capacity = Ok s ->
        length (segment s) = 0%nat
        /\ (forall i v,
              Inthash.Get (hash s) (KInt i) = Ok 0
              /\ Set_ s (KInt i) v = Panic (IndexOutOfRange 0 0)
              /\ Get s (KInt i) = Panic (IndexOutOfRange 0 0))
        /\ (forall str v,
              Inthash.Get (hash s) (KString str) = Ok 0
              /\ Set_ s (KString str) v = Panic (IndexOutOfRange 0 0)
              /\ Get s (KString str) = Panic (IndexOutOfRange 0 0))
        /\ Keys s = Panic (IndexOutOfRange 0 0))
  /\ (forall s, NewSegmentedMap 1 capacity = Ok s ->
        length (segment s) = 1%nat
        /\ forall i v, Inthash.Get (hash s) (KInt i) = Ok 0
                       /\ exists s', Set_ s (KInt i) v = Ok s')
  /\ NewSegmentedMap (V := V) (-1) capacity = Panic MakesliceLenOutOfRange.
Proof.
  assert (Hroute : forall n k, n <= 1 -> routed k = true ->
                     Inthash.Get (NewHash n) k = Ok 0).
  { intros n k Hn Hk. destruct (Get_routed (NewHash n) k Hk) as [i Hi].
    by rewrite Hi, (Get_single_segment n (NewHash n) k i Hn eq_refl Hi). }
  split; [reflexivity|]. split; [|split; [|reflexivity]].
  - intros s [= <-]. split; [reflexivity|].
    split; [|split; [|reflexivity]].
    + intros i v. unfold Set_, Get, lock, rLock. cbn.
      rewrite (Hroute 0 (KInt i)) by done. by repeat split.
    + intros str v. unfold Set_, Get, lock, rLock. cbn.
      rewrite (Hroute 0 (KString str)) by done. by repeat split.
  - intros s Hs. split; [by injection Hs as <-|].
    intros i v.
    destruct (NewSegmentedMap_routes 1 capacity s (KInt i)
                ltac:(lia) Hs eq_refl) as [h Hr].
    injection Hs as <-. cbn. rewrite (Hroute 1 (KInt i)) by done.
    split; [done|]. rewrite (Set_routes _ _ v _ _ Hr). eauto.
Qed.

(** C7, amended.  For every key [k] that is not a floating-point NaN
    (every key that equals itself) and every value [v]: once [Set] has
    stored [v] under [k], on any map, [Get] returns [v] and true, and
    still does after any run of calls of the public operations none of
    which is a [Set], [Delete], [DeleteConditional], [GetAndDelete],
    [Update] or [UpdateExisting] on a key equal to [k]. *)
Theorem Get_after_Set {C R : Type} s k v s'
    (ops : list (Op V C R)) (c : C) (st : Map V * C) :
  Gomap.isNaN k = false ->
  Set_ s k v = Ok s' ->
  Forall (spares k) ops ->
  calls (s', c) ops = Ok st ->
  Get s' k = Ok (v, true) /\ Get (fst st) k = Ok (v, true).
Proof.
  intros Hk%key_eqb_not_NaN HSet Hops Hcalls.
  apply Set_Ok in HSet as (h & seg & Hr & ->).
  pose proof (Get_assign_same s k h seg v Hr Hk) as HGet.
  split; [done|]. by eapply calls_spare.
Qed.

End Claims.

End MapClaims.

(** ** The claims on the map of the tests *)

Module MapWitnesses.
Import Inthash Gomap Segmentedmap Fixtures MapClaims.
Local Open Scope string_scope.

(** C7, as stated, fails on a floating-point key that is NaN: [Set]
    stores the value, and [Get] does not find it, NaN being no key
    equal to itself. *)
Lemma NaN_key_is_not_found :
  Gomap.isNaN (KFloat64 9221120237041090561) = true
  /\ Gomap.key_eqb (KFloat64 9221120237041090561)
       (KFloat64 9221120237041090561) = false
  /\ (s <- NewSegmentedMap 8 1 ;;
      s' <- Set_ s (KFloat64 9221120237041090561) 7 ;;
      Get s' (KFloat64 9221120237041090561))
     = Ok (0, false).
Proof. split; [|split]; vm_compute; reflexivity. Qed.

Lemma Get_after_Set_witness :
  exists s' st,
    Set_ test_map (KInt 2) "value2" = Ok s'
    /\ calls (R := unit) (s', 0%nat)
         [OpSet (KInt 1) "other"; OpDelete id [KInt 1; KInt 3];
          OpGetOrSet (KInt 2) (counting0 "unused"); OpLen] = Ok st
    /\ Get s' (KInt 2) = Ok ("value2", true)
    /\ Get (fst st) (KInt 2) = Ok ("value2", true).
Proof.
  pose (s1 := withSegment test_map 1 [(KInt 2, "value2")]).
  assert (HSet : Set_ test_map (KInt 2) "value2" = Ok s1)
    by (vm_compute; reflexivity).
  assert (Hcalls : exists st,
             calls (R := unit) (s1, 0%nat)
               [OpSet (KInt 1) "other"; OpDelete id [KInt 1; KInt 3];
                OpGetOrSet (KInt 2) (counting0 "unused"); OpLen] = Ok st)
    by (vm_compute; eexists; reflexivity).
  destruct Hcalls as [st Hcalls].
  exists s1, st. split; [exact HSet|]. split; [exact Hcalls|].
  refine (Get_after_Set test_map (KInt 2) "value2" s1 _ 0%nat st
            eq_refl HSet _ Hcalls).
  repeat (apply Forall_cons; split); try apply Forall_nil;
    split; try exact I; try (intros l; reflexivity);
    repeat (apply Forall_cons; split); try apply Forall_nil;
    reflexivity.
Defined.

End MapWitnesses.

(** * Further properties of the router *)

Module RouterFacts.
Import Inthash InthashFacts Unsafe.

Lemma ascii_of_byte_of_ascii (c : ascii) : ascii_of_byte (byte_of_ascii c) = c.
Proof.
  unfold ascii_of_byte, byte_of_ascii. by rewrite N2Z.id, ascii_N_embedding.
Qed.

Lemma byte_of_ascii_range (c : ascii) : 0 <= byte_of_ascii c < 256.
Proof.
  unfold byte_of_ascii. pose proof (N_ascii_bounded c). lia.
Qed.

Lemma byte_of_ascii_of_byte (b : Z) :
  0 <= b < 256 -> byte_of_ascii (ascii_of_byte b) = b.
Proof.
  intros Hb. unfold ascii_of_byte, byte_of_ascii.
  rewrite N_ascii_embedding by lia. lia.
Qed.

Lemma map_ascii_of_byte_of_ascii (l : list ascii) :
  map ascii_of_byte (map byte_of_ascii l) = l.
Proof.
  induction l as [|c l IH]; cbn; [done|].
  by rewrite ascii_of_byte_of_ascii, IH.
Qed.

Lemma map_byte_of_ascii_of_byte (b : list Z) :
  Forall (fun x => 0 <= x < 256) b ->
  map byte_of_ascii (map ascii_of_byte b) = b.
Proof.
  induction 1 as [|x b Hx _ IH]; cbn; [done|].
  by rewrite byte_of_ascii_of_byte, IH.
Qed.

Lemma length_StringToBytes (s : string) :
  length (StringToBytes s) = String.length s.
Proof.
  unfold StringToBytes. rewrite length_map.
  induction s as [|c s IH]; cbn; [done|]. by rewrite IH.
Qed.

(** The mask of a count that an [int] holds. *)
Lemma mask_of_count (n : Z) :
  1 <= n < 2 ^ 63 -> mask n = 2 ^ Z.min (Z.log2 n) 16 - 1.
Proof.
  intros Hn. unfold mask, log2_bits.
  replace (Z.max n 1) with n by lia.
  assert (Hlog : 0 <= Z.log2 n < 63).
  { split; [apply Z.log2_nonneg|]. apply Z.log2_lt_pow2; lia. }
  unfold uint16 at 3. rewrite (Z.mod_small (Z.log2 n)) by lia.
  rewrite Z.shiftl_1_l.
  destruct (Z.ltb_spec (Z.log2 n) 16) as [Hlt | Hge].
  - rewrite Z.min_l by lia.
    assert (0 < 2 ^ Z.log2 n < 2 ^ 16).
    { split; [apply Z.pow_pos_nonneg; lia|].
      apply Z.pow_lt_mono_r; lia. }
    unfold uint16. rewrite (Z.mod_small (2 ^ Z.log2 n)) by lia.
    rewrite Z.mod_small by lia. done.
  - rewrite Z.min_r by lia.
    replace (Z.log2 n) with (16 + (Z.log2 n - 16)) by lia.
    rewrite Z.pow_add_r by lia. unfold uint16.
    rewrite Z.mul_comm, Z.mod_mul by lia. reflexivity.
Qed.

End RouterFacts.

Module RouterExtras.
Import Inthash InthashFacts Unsafe RouterFacts.
Local Open Scope string_scope.

(** X1.  [BytesToString] undoes [StringToBytes] on every string but the
    empty one, whose (empty) byte view makes it panic; [StringToBytes]
    gives one byte below 256 for each character, and undoes
    [BytesToString] on every non-empty slice of such bytes. *)
Theorem byte_views_round_trip (s : string) :
  s <> EmptyString ->
  BytesToString (StringToBytes s) = Ok s
  /\ length (StringToBytes s) = String.length s
  /\ Forall (fun b => 0 <= b < 256) (StringToBytes s)
  /\ BytesToString (StringToBytes EmptyString) = Panic (IndexOutOfRange 0 0)
  /\ (forall b, b <> [] -> Forall (fun x => 0 <= x < 256) b ->
        exists t, BytesToString b = Ok t /\ StringToBytes t = b).
Proof.
  intros Hs. split; [|split; [|split; [|split]]].
  - unfold BytesToString, StringToBytes.
    destruct s as [|c s]; [done|]. cbn [list_ascii_of_string map].
    f_equal. cbn [string_of_list_ascii].
    by rewrite ascii_of_byte_of_ascii, map_ascii_of_byte_of_ascii,
         string_of_list_ascii_of_string.
  - apply length_StringToBytes.
  - unfold StringToBytes. apply List.Forall_forall. intros b Hb.
    apply in_map_iff in Hb as (c & <- & _). apply byte_of_ascii_range.
  - reflexivity.
  - intros b Hb Hall. destruct b as [|x b]; [done|].
    eexists. split; [reflexivity|]. unfold StringToBytes.
    by rewrite list_ascii_of_string_of_list_ascii, map_byte_of_ascii_of_byte.
Qed.

Lemma byte_views_round_trip_witness :
  BytesToString (StringToBytes "test-1") = Ok "test-1".
Proof.
  exact (proj1 (byte_views_round_trip "test-1" ltac:(discriminate))).
Defined.

(** X2.  For a segment count [n] from 1 up to the largest [int], the
    mask is one less than the largest power of two that is at most [n]
    and at most 65536, and the index of a key is the 32-bit sum of its
    bytes modulo that power: when [n] is no power of two, or is above
    65536, the segments from that power on receive no key. *)
Theorem index_is_sum_modulo_power (n : Z) (s : Hash) (k : Key) (i : Z) :
  1 <= n < 2 ^ 63 ->
  hmask s = mask n ->
  Get s k = Ok i ->
  mask n = 2 ^ Z.min (Z.log2 n) 16 - 1
  /\ 2 ^ Z.min (Z.log2 n) 16 <= n
  /\ 0 <= i < 2 ^ Z.min (Z.log2 n) 16
  /\ exists bytes,
       keyBytes k = Ok bytes
       /\ i = Fnv.Sum32 (Fnv.Write Fnv.New32 bytes)
              mod 2 ^ Z.min (Z.log2 n) 16.
Proof.
  intros Hn Hmask HGet.
  pose proof (mask_of_count n Hn) as Hm.
  assert (Hlog : 0 <= Z.log2 n) by apply Z.log2_nonneg.
  assert (Hpow : 2 ^ Z.min (Z.log2 n) 16 <= n).
  { pose proof (Z.log2_spec n ltac:(lia)) as [Hlo _].
    pose proof (Z.pow_le_mono_r 2 (Z.min (Z.log2 n) 16) (Z.log2 n)
                  ltac:(lia) ltac:(lia)).
    lia. }
  unfold Get in HGet.
  destruct (keyBytes k) as [bytes|] eqn:Hb; cbn in HGet; [|discriminate].
  injection HGet as <-.
  rewrite Hmask, Hm.
  replace (2 ^ Z.min (Z.log2 n) 16 - 1) with (Z.ones (Z.min (Z.log2 n) 16))
    by (rewrite Z.ones_equiv; lia).
  rewrite Z.land_ones by lia.
  split; [rewrite Z.ones_equiv; lia|]. split; [done|].
  split; [|exists bytes; by split].
  apply Z.mod_pos_bound. apply Z.pow_pos_nonneg; lia.
Qed.

Lemma index_is_sum_modulo_power_witness :
  exists i, Get (NewHash 10) (KInt 5) = Ok i /\ 0 <= i < 8.
Proof.
  assert (HGet : exists i, Get (NewHash 10) (KInt 5) = Ok i)
    by (vm_compute; eexists; reflexivity).
  destruct HGet as [i HGet]. exists i. split; [exact HGet|].
  exact (proj1 (proj2 (proj2 (index_is_sum_modulo_power 10 (NewHash 10)
                                (KInt 5) i ltac:(lia) eq_refl HGet)))).
Defined.

End RouterExtras.

(** * Further properties of the map *)

(** ** Go's map: distinct keys, sizes *)

Module InvariantFacts.
Import Inthash Gomap GomapFacts InthashFacts Segmentedmap SegmentedmapFacts
  DeleteFacts CallFacts ConstructionFacts Invariant.

#[local] Arguments index : simpl never.
#[local] Arguments Inthash.Get : simpl never.

Section Facts.
Context {V : Type} `{Zero V}.
Implicit Types (s : Map V) (k : Key) (v : V) (h : Z) (seg m : Gomap.t V).

Lemma lookup_None_In m k (e : Key * V) :
  Gomap.lookup m k = None -> In e m -> key_eqb (fst e) k = false.
Proof.
  intros Hnone Hin. destruct (key_eqb (fst e) k) eqn:E; [|done].
  destruct (In_lookup m e k Hin E) as [v Hv]. congruence.
Qed.

Lemma lookup_filter_None m k (f : Key * V -> bool) :
  Gomap.lookup m k = None -> Gomap.lookup (List.filter f m) k = None.
Proof.
  induction m as [|[k0 v0] m IH]; cbn; [done|].
  destruct (key_eqb k0 k) eqn:E; [discriminate|]. intros Hm.
  destruct (f (k0, v0)); cbn; [rewrite E|]; by apply IH.
Qed.

Lemma distinct_filter m (f : Key * V -> bool) :
  distinct m -> distinct (List.filter f m).
Proof.
  induction m as [|[k0 v0] m IH]; cbn; [done|]. intros [Hk Hm].
  destruct (f (k0, v0)); cbn; [|by apply IH].
  split; [by apply lookup_filter_None|by apply IH].
Qed.

Lemma distinct_assign m k v : distinct m -> distinct (assign m k v).
Proof.
  induction m as [|[k0 v0] m IH]; cbn; [done|]. intros [Hk Hm].
  destruct (key_eqb k0 k) eqn:E; cbn.
  - split; [|done]. by rewrite <- (lookup_eqv m k0 k E).
  - split; [|by apply IH].
    rewrite lookup_assign_ne; [done|]. by rewrite key_eqb_sym.
Qed.

(** In a map of distinct keys an entry is what its key finds. *)
Lemma distinct_lookup m k v :
  distinct m -> In (k, v) m -> key_eqb k k = true ->
  Gomap.lookup m k = Some v.
Proof.
  intros Hd Hin Hk. induction m as [|[k0 v0] m IH]; cbn; [done|].
  destruct Hd as [Hk0 Hm]. destruct Hin as [[= -> ->]|Hin].
  - by rewrite Hk.
  - destruct (key_eqb k0 k) eqn:E; [|by apply IH].
    pose proof (lookup_None_In m k0 (k, v) Hk0 Hin) as Hne. cbn in Hne.
    rewrite key_eqb_sym in Hne. congruence.
Qed.

Lemma length_assign m k v :
  length (assign m k v)
  = match Gomap.lookup m k with
    | Some _ => length m
    | None => S (length m)
    end.
Proof.
  induction m as [|[k0 v0] m IH]; cbn; [done|].
  destruct (key_eqb k0 k); cbn; [done|]. rewrite IH.
  by destruct (Gomap.lookup m k).
Qed.

Lemma delete_absent m k : Gomap.lookup m k = None -> Gomap.delete m k = m.
Proof.
  intros Hnone. unfold Gomap.delete. apply filter_all. intros e He.
  by rewrite (lookup_None_In m k e Hnone He).
Qed.

Lemma length_delete m k :
  distinct m ->
  length m
  = match Gomap.lookup m k with
    | Some _ => S (length (Gomap.delete m k))
    | None => length (Gomap.delete m k)
    end.
Proof.
  induction m as [|[k0 v0] m IH]; cbn; [done|]. intros [Hk0 Hm].
  destruct (key_eqb k0 k) eqn:E; cbn.
  - f_equal. fold (Gomap.delete m k). rewrite delete_absent; [done|].
    by rewrite <- (lookup_eqv m k0 k E).
  - fold (Gomap.delete m k). rewrite (IH Hm).
    by destruct (Gomap.lookup m k).
Qed.

Lemma placed_filter (hs : Hash) (i : nat) m (f : Key * V -> bool) :
  placed hs i m -> placed hs i (List.filter f m).
Proof.
  unfold placed. rewrite !List.Forall_forall. intros Hall e He.
  apply filter_In in He as [He _]. by apply Hall.
Qed.

Lemma placed_assign (hs : Hash) (i : nat) m k v :
  Inthash.Get hs k = Ok (Z.of_nat i) ->
  placed hs i m -> placed hs i (assign m k v).
Proof.
  intros Hk. unfold placed.
  induction m as [|[k0 v0] m IH]; cbn; intros Hall.
  - by repeat constructor.
  - apply Forall_cons in Hall as [H0 Hall].
    destruct (key_eqb k0 k); constructor; auto.
Qed.

(** *** Maps as built *)

Lemma index_lt {A : Type} (l : list A) (i : Z) :
  0 <= i < Z.of_nat (length l) -> exists x, index l i = Ok x.
Proof.
  intros Hi. destruct (l !! Z.to_nat i) as [x|] eqn:E.
  - exists x. apply index_Ok. split; [lia|done].
  - apply lookup_ge_None in E. lia.
Qed.

Lemma built_routes s k :
  built s -> routed k = true ->
  exists h seg, routes s k h seg /\ segment s !! Z.to_nat h = Some seg.
Proof.
  intros [Hn Hmu Hh _ _] Hk.
  destruct (Get_routed (hash s) k Hk) as [h HGet].
  assert (Hr : 0 <= h < Z.of_nat (length (segment s))).
  { pose proof (Get_range (Z.of_nat (length (segment s))) (hash s) k h
                  ltac:(by rewrite Hh) HGet). lia. }
  destruct (index_lt (segment s) h Hr) as [seg Hseg].
  destruct (index_lt (mutex s) h ltac:(lia)) as [[] Hm].
  pose proof Hseg as [_ Hl]%index_Ok.
  exists h, seg. split; [by repeat split|exact Hl].
Qed.

Lemma built_new (n capacity : Z) s :
  1 <= n -> NewSegmentedMap n capacity = Ok s -> built s.
Proof.
  intros Hn Hs. rewrite NewSegmentedMap_Ok in Hs by lia. injection Hs as <-.
  constructor; cbn; rewrite ?length_replicate; try lia.
  - by rewrite Z2Nat.id by lia.
  - by rewrite Z2Nat.id by lia.
  - intros i seg [-> _]%lookup_replicate. by split; [|constructor].
Qed.

Lemma built_withSegment s h seg m :
  built s ->
  index (segment s) h = Ok seg ->
  distinct m -> placed (hash s) (Z.to_nat h) m ->
  built (withSegment s h m).
Proof.
  intros [Hn Hmu Hh Hsd Hsegs] [Hh0 Hseg]%index_Ok Hd Hp.
  constructor; cbn; rewrite ?length_insert; try done.
  intros i seg'. destruct (decide (i = Z.to_nat h)) as [->|Hne].
  - rewrite list_lookup_insert_eq by (by eapply lookup_lt_Some).
    by intros [= <-].
  - rewrite list_lookup_insert_ne by done. apply Hsegs.
Qed.

Lemma built_without s (keys : list Key) : built s -> built (without s keys).
Proof.
  intros [Hn Hmu Hh Hsd Hsegs].
  constructor; cbn; rewrite ?length_imap; try done.
  intros i seg'. rewrite list_lookup_imap.
  destruct (segment s !! i) as [seg|] eqn:Hi; cbn; [|done].
  intros [= <-]. destruct (Hsegs i seg Hi) as [Hd Hp].
  split; [by apply distinct_filter|by apply placed_filter].
Qed.

Lemma built_assign s k h seg v :
  built s -> routes s k h seg ->
  built (withSegment s h (assign seg k v)).
Proof.
  intros Hb (Hk & _ & Hseg).
  pose proof Hseg as [Hh0 Hl]%index_Ok.
  destruct (built_segments s Hb _ _ Hl) as [Hd Hp].
  apply (built_withSegment s h seg); [done..| |].
  - by apply distinct_assign.
  - apply placed_assign; [|done]. by rewrite Z2Nat.id.
Qed.

Lemma built_delete s k h seg :
  built s -> routes s k h seg ->
  built (withSegment s h (Gomap.delete seg k)).
Proof.
  intros Hb (Hk & _ & Hseg).
  pose proof Hseg as [Hh0 Hl]%index_Ok.
  destruct (built_segments s Hb _ _ Hl) as [Hd Hp].
  apply (built_withSegment s h seg); [done..| |].
  - by apply distinct_filter.
  - by apply placed_filter.
Qed.

(** Every call leaves a built map built. *)
Lemma call_keeps_built {C R : Type} s (c : C) (op : Op V C R) s' c' :
  built s ->
  (match op with OpDelete order _ => rearranges order | _ => True end) ->
  call (s, c) op = Ok (s', c') ->
  built s'.
Proof.
  intros Hb Hord Hcall.
  destruct op as [k' v'|k'|order keys|k' f| | | |k' f|k'|k' d f|k' f|k' f|f];
    cbn in Hcall;
    apply bind_Ok in Hcall as (r & Hr & Hcall);
    injection Hcall as <- <-;
    try exact Hb.
  - apply Set_Ok in Hr as (h' & seg' & Hr' & ->). by apply built_assign.
  - apply (DeleteIn_Ok order) in Hr as [-> _]; [|done].
    by apply built_without.
  - destruct (DeleteConditional_Ok _ _ _ _ _ Hr) as (h' & seg' & Hr').
    rewrite (DeleteConditional_routes _ _ _ _ _ _ Hr') in Hr.
    destruct (Gomap.lookup seg' k') as [x|]; injection Hr as <-; cbn;
      [|done].
    destruct (fst (f x c)); [by apply built_delete|done].
  - destruct (GetOrSet_Ok _ _ _ _ _ Hr) as (h' & seg' & Hr').
    rewrite (GetOrSet_routes _ _ _ _ _ _ Hr') in Hr.
    destruct (Gomap.lookup seg' k') as [x|]; injection Hr as <-; cbn;
      [done|by apply built_assign].
  - destruct (GetAndDelete_Ok _ _ _ Hr) as (h' & seg' & Hr').
    rewrite (GetAndDelete_routes _ _ _ _ Hr') in Hr.
    destruct (Gomap.lookup seg' k') as [x|]; injection Hr as <-; cbn;
      [by apply built_delete|done].
  - destruct (Update_Ok _ _ _ _ _ _ Hr) as (h' & seg' & Hr').
    rewrite (Update_routes _ _ _ _ _ _ _ Hr') in Hr.
    injection Hr as <-. cbn. by apply built_assign.
  - destruct (UpdateExisting_Ok _ _ _ _ _ Hr) as (h' & seg' & Hr').
    rewrite (UpdateExisting_routes _ _ _ _ _ _ Hr') in Hr.
    destruct (Gomap.lookup seg' k') as [x|]; injection Hr as <-; cbn;
      [by apply built_assign|done].
Qed.

End Facts.

End InvariantFacts.

(** ** The loops over the segments *)

Module LoopFacts.
Import Inthash Gomap GomapFacts InthashFacts Segmentedmap SegmentedmapFacts
  DeleteFacts CallFacts ConstructionFacts Invariant InvariantFacts.

#[local] Arguments index : simpl never.
#[local] Arguments Inthash.Get : simpl never.

Section Facts.
Context {V : Type} `{Zero V}.
Implicit Types (s : Map V) (k : Key) (v : V) (h : Z) (seg m : Gomap.t V).

Lemma index_nat {A : Type} (l : list A) (i : nat) (x : A) :
  l !! i = Some x -> index l (Z.of_nat i) = Ok x.
Proof. intros Hl. apply index_Ok. split; [lia|]. by rewrite Nat2Z.id. Qed.

Lemma mutex_at s (pre rest : list (Gomap.t V)) seg :
  segment s = pre ++ seg :: rest ->
  length (mutex s) = length (segment s) ->
  index (mutex s) (Z.of_nat (length pre)) = Ok mkRWMutex.
Proof.
  intros Hsegs Hmu.
  destruct (index_lt (mutex s) (Z.of_nat (length pre))) as [[] Hm]; [|done].
  rewrite Hmu, Hsegs, length_app. cbn. lia.
Qed.

Lemma segment_at s (pre rest : list (Gomap.t V)) seg :
  segment s = pre ++ seg :: rest ->
  index (segment s) (Z.of_nat (length pre)) = Ok seg.
Proof.
  intros Hsegs. apply index_nat. rewrite Hsegs. by apply list_lookup_middle.
Qed.

(** The loop of [Len], [Keys] and [Values] folds over the segments. *)
Lemma foldl_segments {A : Type} (F : A -> Gomap.t V -> A) s
    (pre rest : list (Gomap.t V)) (a : A) :
  segment s = pre ++ rest ->
  length (mutex s) = length (segment s) ->
  foldl (fun acc i =>
           x <- acc ;;
           _ <- rLock s (Z.of_nat i) ;;
           seg <- index (segment s) (Z.of_nat i) ;;
           _ <- rUnlock s (Z.of_nat i) ;;
           Ok (F x seg))
        (Ok a) (seq (length pre) (length rest))
  = Ok (foldl F a rest).
Proof.
  revert pre a. induction rest as [|seg rest IH]; intros pre a Hsegs Hmu;
    cbn; [done|].
  unfold rLock, rUnlock.
  rewrite (mutex_at s pre rest seg Hsegs Hmu). cbn.
  rewrite (segment_at s pre rest seg Hsegs). cbn.
  specialize (IH (pre ++ [seg]) (F a seg)).
  rewrite length_app in IH. cbn in IH.
  replace (length pre + 1)%nat with (S (length pre)) in IH by lia.
  apply IH; [by rewrite <- app_assoc|done].
Qed.

Lemma foldl_all_segments {A : Type} (F : A -> Gomap.t V -> A) s (a : A) :
  length (mutex s) = length (segment s) ->
  foldl (fun acc i =>
           x <- acc ;;
           _ <- rLock s (Z.of_nat i) ;;
           seg <- index (segment s) (Z.of_nat i) ;;
           _ <- rUnlock s (Z.of_nat i) ;;
           Ok (F x seg))
        (Ok a) (seq 0 (length (segment s)))
  = Ok (foldl F a (segment s)).
Proof. intros Hmu. exact (foldl_segments F s [] (segment s) a eq_refl Hmu). Qed.

Lemma foldl_len (segs : list (Gomap.t V)) (a : Z) :
  foldl (fun x seg => x + Gomap.len seg) a segs
  = a + Z.of_nat (length (concat segs)).
Proof.
  revert a. induction segs as [|seg segs IH]; intros a; cbn; [lia|].
  rewrite IH, length_app. unfold Gomap.len. lia.
Qed.

Lemma foldl_keys (segs : list (Gomap.t V)) (a : list Key) :
  foldl (fun keys seg => keys ++ map fst seg) a segs
  = a ++ map fst (concat segs).
Proof.
  revert a. induction segs as [|seg segs IH]; intros a; cbn.
  - by rewrite app_nil_r.
  - by rewrite IH, map_app, app_assoc.
Qed.

Lemma foldl_values (segs : list (Gomap.t V)) (a : list V) :
  foldl (fun values seg => values ++ map snd seg) a segs
  = a ++ map snd (concat segs).
Proof.
  revert a. induction segs as [|seg segs IH]; intros a; cbn.
  - by rewrite app_nil_r.
  - by rewrite IH, map_app, app_assoc.
Qed.

Lemma Len_entries s :
  length (mutex s) = length (segment s) ->
  Len s = Ok (Z.of_nat (length (entries s))).
Proof.
  intros Hmu. unfold Len.
  rewrite (foldl_all_segments (fun x seg => x + Gomap.len seg) s 0 Hmu).
  by rewrite foldl_len.
Qed.

Lemma first_segment s :
  (1 <= length (segment s))%nat -> exists seg, index (segment s) 0 = Ok seg.
Proof. intros Hn. apply index_lt. lia. Qed.

Lemma Keys_entries s :
  (1 <= length (segment s))%nat ->
  length (mutex s) = length (segment s) ->
  Keys s = Ok (map fst (entries s)).
Proof.
  intros Hn Hmu. unfold Keys.
  destruct (first_segment s Hn) as [seg0 ->]. cbn.
  rewrite (foldl_all_segments (fun keys seg => keys ++ map fst seg) s []
             Hmu).
  by rewrite foldl_keys.
Qed.

Lemma Values_entries s :
  (1 <= length (segment s))%nat ->
  length (mutex s) = length (segment s) ->
  Values s = Ok (map snd (entries s)).
Proof.
  intros Hn Hmu. unfold Values.
  destruct (first_segment s Hn) as [seg0 ->]. cbn.
  rewrite (foldl_all_segments (fun values seg => values ++ map snd seg) s
             [] Hmu).
  by rewrite foldl_values.
Qed.

(** [Range] *)

Lemma rangeEntries_app {C : Type} (m1 m2 : Gomap.t V)
    (run : Key -> V -> C -> bool * C) (c : C) :
  rangeEntries (m1 ++ m2) run c
  = if fst (rangeEntries m1 run c)
    then rangeEntries m2 run (snd (rangeEntries m1 run c))
    else (false, snd (rangeEntries m1 run c)).
Proof.
  revert c. induction m1 as [|[k v] m1 IH]; intros c; cbn; [done|].
  destruct (run k v c) as [[] c']; cbn; [apply IH|done].
Qed.

Lemma rangeEntries_stopped {C : Type} (m : Gomap.t V)
    (run : Key -> V -> C -> bool * C) (c : C) :
  fst (rangeEntries m run c) = false ->
  rangeEntries m run c = (false, snd (rangeEntries m run c)).
Proof. by destruct (rangeEntries m run c) as [[] c']. Qed.

Lemma rangeSegments_entries {C : Type} s (pre rest : list (Gomap.t V))
    (run : Key -> V -> C -> bool * C) (c : C) :
  segment s = pre ++ rest ->
  length (mutex s) = length (segment s) ->
  rangeSegments s (seq (length pre) (length rest)) run c
  = Ok (snd (rangeEntries (concat rest) run c)).
Proof.
  revert pre c. induction rest as [|seg rest IH]; intros pre c Hsegs Hmu;
    cbn; [done|].
  unfold rLock, rUnlock.
  rewrite (mutex_at s pre rest seg Hsegs Hmu). cbn.
  rewrite (segment_at s pre rest seg Hsegs). cbn.
  rewrite rangeEntries_app.
  destruct (rangeEntries seg run c) as [[] c'] eqn:E; cbn;
    rewrite ?(mutex_at s pre rest seg Hsegs Hmu); cbn; [|done].
  specialize (IH (pre ++ [seg]) c').
  rewrite length_app in IH. cbn in IH.
  replace (length pre + 1)%nat with (S (length pre)) in IH by lia.
  apply IH; [by rewrite <- app_assoc|done].
Qed.

Lemma Range_entries {C : Type} s (run : Key -> V -> C -> bool * C) (c : C) :
  length (mutex s) = length (segment s) ->
  Range s run c = Ok (snd (rangeEntries (entries s) run c)).
Proof.
  intros Hmu. unfold Range.
  exact (rangeSegments_entries s [] (segment s) run c eq_refl Hmu).
Qed.

Lemma rangeEntries_noting (m : Gomap.t V) (seen : list Key) :
  rangeEntries m noting seen = (true, seen ++ map fst m).
Proof.
  revert seen. induction m as [|[k v] m IH]; intros seen; cbn.
  - by rewrite app_nil_r.
  - by rewrite IH, <- app_assoc.
Qed.

(** [Calculate] on a routed key *)
Lemma Calculate_routes {C R : Type} s k (calculate : V -> C -> R * C)
    (c : C) h seg :
  routes s k h seg ->
  Calculate s k calculate c =
  match Gomap.lookup seg k with
  | Some v => Ok (Some (fst (calculate v c)), true, snd (calculate v c))
  | None => Ok (None, false, c)
  end.
Proof.
  intros (Hk & Hmu & Hseg). unfold Calculate, lock, unlock.
  rewrite Hk. cbn. rewrite Hmu. cbn. rewrite Hseg. cbn.
  destruct (Gomap.lookup seg k) as [v|]; cbn; [|by rewrite ?Hmu].
  destruct (calculate v c) as [x c']; cbn; by rewrite ?Hmu.
Qed.

(** On a built map a call on keys that the router returns on returns. *)
Lemma call_total {C R : Type} s (c : C) (op : Op V C R) :
  built s -> admissible op -> exists st, call (s, c) op = Ok st.
Proof.
  intros Hb [Hkeys Hord].
  assert (Hroutes : forall k, In k (keys_of op) ->
                      exists h seg, routes s k h seg).
  { intros k Hin. rewrite List.Forall_forall in Hkeys.
    destruct (built_routes s k Hb (Hkeys k Hin)) as (h & seg & Hr & _).
    eauto. }
  pose proof (built_mutex s Hb) as Hmu.
  pose proof (built_count s Hb) as Hn.
  destruct op as [k v|k|order keys|k f| | | |k f|k|k d f|k f|k f|f]; cbn;
    try (destruct (Hroutes k ltac:(by left)) as (h & seg & Hr)).
  - rewrite (Set_routes _ _ v _ _ Hr). cbn. eauto.
  - rewrite (routes_Get _ _ _ _ Hr). cbn. eauto.
  - destruct (DeleteIn_total order s keys Hord) as [s' ->]; [|cbn; eauto].
    apply List.Forall_forall. intros k Hin.
    destruct (Hroutes k Hin) as (h & seg & Hr).
    exists (answer seg k). by apply (routes_Get _ _ h).
  - rewrite (DeleteConditional_routes _ _ _ _ _ _ Hr).
    destruct (Gomap.lookup seg k); cbn; eauto.
  - rewrite (Len_entries s Hmu). cbn. eauto.
  - rewrite (Keys_entries s Hn Hmu). cbn. eauto.
  - rewrite (Values_entries s Hn Hmu). cbn. eauto.
  - rewrite (GetOrSet_routes _ _ _ _ _ _ Hr).
    destruct (Gomap.lookup seg k); cbn; eauto.
  - rewrite (GetAndDelete_routes _ _ _ _ Hr).
    destruct (Gomap.lookup seg k); cbn; eauto.
  - rewrite (Update_routes _ _ _ _ _ _ _ Hr). cbn. eauto.
  - rewrite (UpdateExisting_routes _ _ _ _ _ _ Hr).
    destruct (Gomap.lookup seg k); cbn; eauto.
  - rewrite (Calculate_routes _ _ _ _ _ _ Hr).
    destruct (Gomap.lookup seg k); cbn; eauto.
  - rewrite (Range_entries s f c Hmu). cbn. eauto.
Qed.

End Facts.

End LoopFacts.

(** ** How the operations compose *)

Module ComposeFacts.
Import Inthash Gomap GomapFacts InthashFacts Segmentedmap SegmentedmapFacts
  DeleteFacts CallFacts ConstructionFacts Invariant InvariantFacts LoopFacts.

#[local] Arguments index : simpl never.
#[local] Arguments Inthash.Get : simpl never.

Section Facts.
Context {V : Type} `{Zero V}.
Implicit Types (s : Map V) (k : Key) (v : V) (h : Z) (seg m : Gomap.t V).

Lemma withSegment_twice s h m1 m2 :
  withSegment (withSegment s h m1) h m2 = withSegment s h m2.
Proof. unfold withSegment. cbn. by rewrite list_insert_insert_eq. Qed.

Lemma routes_assigned s k h seg m :
  routes s k h seg -> routes (withSegment s h m) k h m.
Proof.
  intros Hr. pose proof (routes_withSegment s k h seg m k h seg Hr Hr) as Hr'.
  by rewrite Z.eqb_refl in Hr'.
Qed.

Lemma assign_assign m k v1 v2 :
  key_eqb k k = true -> assign (assign m k v1) k v2 = assign m k v2.
Proof.
  intros Hk. induction m as [|[k0 v0] m IH]; cbn.
  - by rewrite Hk.
  - destruct (key_eqb k0 k) eqn:E; cbn.
    + by rewrite Hk.
    + by rewrite E, IH.
Qed.

Lemma filter_filter {A : Type} (f : A -> bool) (l : list A) :
  List.filter f (List.filter f l) = List.filter f l.
Proof.
  induction l as [|x l IH]; cbn; [done|].
  destruct (f x) eqn:E; cbn; [|done]. by rewrite E, IH.
Qed.

Lemma without_twice s (keys : list Key) :
  without (without s keys) keys = without s keys.
Proof.
  unfold without. cbn. f_equal. apply list_eq. intros i.
  rewrite !list_lookup_imap.
  destruct (segment s !! i) as [seg|]; cbn; [|done].
  f_equal. unfold less. apply filter_filter.
Qed.

Lemma length_concat_insert (l : list (Gomap.t V)) (i : nat) seg m :
  l !! i = Some seg ->
  (length (concat (<[i := m]> l)) + length seg
   = length (concat l) + length m)%nat.
Proof.
  revert i. induction l as [|x l IH]; intros [|i] Hl; try done.
  - injection Hl as ->. change (<[0%nat := m]> (seg :: l)) with (m :: l).
    rewrite !concat_cons, !length_app. lia.
  - change (<[S i := m]> (x :: l)) with (x :: <[i := m]> l).
    change ((x :: l) !! S i) with (l !! i) in Hl.
    rewrite !concat_cons, !length_app. specialize (IH i Hl). lia.
Qed.

Lemma In_entries s (e : Key * V) :
  In e (entries s) <->
  exists i seg, segment s !! i = Some seg /\ In e seg.
Proof.
  unfold entries. rewrite in_concat. split.
  - intros (seg & Hseg & He).
    apply list_elem_of_In, list_elem_of_lookup in Hseg as [i Hi]. eauto.
  - intros (i & seg & Hi & He). exists seg. split; [|done].
    apply list_elem_of_In, list_elem_of_lookup. eauto.
Qed.

(** Runs of calls on a built map *)

Lemma calls_built {C R : Type} (ops : list (Op V C R)) s (c : C) st :
  built s ->
  Forall (fun op => match op with
                    | OpDelete order _ => rearranges order
                    | _ => True
                    end) ops ->
  calls (s, c) ops = Ok st ->
  built (fst st) /\ hash (fst st) = hash s.
Proof.
  intros Hb Hops. revert s c Hb.
  induction Hops as [|op ops Hop _ IH]; intros s c Hb; cbn [calls].
  - by intros [= <-].
  - intros Hc. apply bind_Ok in Hc as ([s1 c1] & Hcall & Hc).
    destruct (IH s1 c1) as [Hb' Hh']; [|done|].
    + by apply (call_keeps_built s c op s1 c1).
    + split; [done|]. rewrite Hh'.
      by apply (BuiltFacts.call_keeps_hash s c op s1 c1).
Qed.

Lemma calls_total {C R : Type} (ops : list (Op V C R)) s (c : C) :
  built s -> Forall admissible ops -> exists st, calls (s, c) ops = Ok st.
Proof.
  intros Hb Hops. revert s c Hb.
  induction Hops as [|op ops Hop _ IH]; intros s c Hb; cbn [calls];
    [eauto|].
  destruct (call_total s c op Hb Hop) as [[s1 c1] Hcall].
  rewrite Hcall. cbn [bind].
  apply IH. apply (call_keeps_built s c op s1 c1); [done| |done].
  destruct Hop as [_ Hord]. exact Hord.
Qed.

Lemma concat_replicate_nil {A : Type} (n : nat) :
  concat (replicate n (@nil A)) = [].
Proof. induction n; cbn; [done|]. by rewrite IHn. Qed.

(** The segment of an entry *)

Lemma routes_fun s k h seg h' seg' :
  routes s k h seg -> routes s k h' seg' -> h' = h /\ seg' = seg.
Proof.
  intros (Hk & _ & Hseg) (Hk' & _ & Hseg').
  rewrite Hk in Hk'. injection Hk' as <-.
  rewrite Hseg in Hseg'. by injection Hseg' as <-.
Qed.

Lemma routes_lookup s k h seg :
  routes s k h seg -> 0 <= h /\ segment s !! Z.to_nat h = Some seg.
Proof. intros (_ & _ & Hseg). by apply index_Ok. Qed.

Lemma built_segment_routes s (i : nat) seg k v :
  built s -> segment s !! i = Some seg -> In (k, v) seg ->
  routes s k (Z.of_nat i) seg.
Proof.
  intros Hb Hi Hin.
  destruct (built_segments s Hb i seg Hi) as [_ Hp].
  unfold placed in Hp. rewrite List.Forall_forall in Hp.
  split; [exact (Hp _ Hin)|]. split; [|by apply index_nat].
  assert (Hlt : (i < length (mutex s))%nat).
  { rewrite (built_mutex s Hb). by eapply lookup_lt_Some. }
  destruct (lookup_lt_is_Some_2 _ _ Hlt) as [mu Hmu]. destruct mu.
  by apply index_nat.
Qed.

Lemma listed_found s k v :
  built s -> In (k, v) (entries s) -> key_eqb k k = true ->
  Get s k = Ok (v, true).
Proof.
  intros Hb (i & seg & Hi & Hin)%In_entries Hk.
  pose proof (built_segment_routes s i seg k v Hb Hi Hin) as Hr.
  rewrite (routes_Get _ _ _ _ Hr). unfold answer.
  destruct (built_segments s Hb i seg Hi) as [Hd _].
  by rewrite (distinct_lookup seg k v Hd Hin Hk).
Qed.

Lemma found_listed s k v :
  Get s k = Ok (v, true) ->
  exists k', In (k', v) (entries s) /\ key_eqb k' k = true.
Proof.
  intros (h & seg & Hr & Hans)%Get_routes.
  unfold answer in Hans.
  destruct (Gomap.lookup seg k) as [x|] eqn:Hl; [|done].
  injection Hans as ->.
  destruct (lookup_In _ _ _ Hl) as (k' & Hin & Hk').
  exists k'. split; [|done]. apply In_entries.
  destruct (routes_lookup _ _ _ _ Hr) as [_ Hseg]. eauto.
Qed.

Lemma Len_withSegment s h seg m :
  length (mutex s) = length (segment s) ->
  index (segment s) h = Ok seg ->
  exists n,
    Len s = Ok n
    /\ Len (withSegment s h m)
       = Ok (n - Z.of_nat (length seg) + Z.of_nat (length m)).
Proof.
  intros Hmu [Hh Hseg]%index_Ok.
  exists (Z.of_nat (length (entries s))). split; [by apply Len_entries|].
  rewrite Len_entries
    by (unfold withSegment; cbn; by rewrite length_insert).
  f_equal. unfold entries, withSegment. cbn.
  pose proof (length_concat_insert (segment s) (Z.to_nat h) seg m Hseg).
  lia.
Qed.

(** Deleting in parts *)

Lemma less_app (hs : Hash) (keys1 keys2 : list Key) (i : nat) seg :
  less hs keys2 i (less hs keys1 i seg) = less hs (keys1 ++ keys2) i seg.
Proof.
  unfold less. induction seg as [|e seg IH]; cbn; [done|].
  rewrite existsb_app, negb_orb.
  destruct (existsb _ keys1); cbn; [done|].
  destruct (existsb _ keys2); cbn; [done|]. by rewrite IH.
Qed.

Lemma without_app s (keys1 keys2 : list Key) :
  without (without s keys1) keys2 = without s (keys1 ++ keys2).
Proof.
  unfold without. cbn. f_equal. apply list_eq. intros i.
  rewrite !list_lookup_imap.
  destruct (segment s !! i) as [seg|]; cbn; [|done].
  f_equal. apply less_app.
Qed.

Lemma Get_without_returns s (keys : list Key) k r :
  Get s k = Ok r -> exists r', Get (without s keys) k = Ok r'.
Proof. intros Hr. rewrite Get_without, Hr. cbn. eauto. Qed.

(** What a call changes *)

Lemma call_shape {C R : Type} s (c : C) (op : Op V C R) s' c' :
  (match op with OpDelete order _ => rearranges order | _ => True end) ->
  call (s, c) op = Ok (s', c') ->
  s' = s
  \/ (exists k h seg m,
        keys_of op = [k] /\ routes s k h seg /\ s' = withSegment s h m)
  \/ s' = without s (keys_of op).
Proof.
  intros Hord Hcall.
  destruct op as [k' v'|k'|order keys|k' f| | | |k' f|k'|k' d f|k' f|k' f|f];
    cbn in Hcall;
    apply bind_Ok in Hcall as (r & Hr & Hcall);
    injection Hcall as <- <-;
    try (by left).
  - apply Set_Ok in Hr as (h' & seg' & Hr' & ->).
    right; left. by eexists _, _, _, _.
  - apply (DeleteIn_Ok order) in Hr as [-> _]; [|done]. by right; right.
  - destruct (DeleteConditional_Ok _ _ _ _ _ Hr) as (h' & seg' & Hr').
    rewrite (DeleteConditional_routes _ _ _ _ _ _ Hr') in Hr.
    destruct (Gomap.lookup seg' k') as [x|]; injection Hr as <-; cbn;
      [|by left].
    destruct (fst (f x c)); [|by left].
    right; left. by eexists _, _, _, _.
  - destruct (GetOrSet_Ok _ _ _ _ _ Hr) as (h' & seg' & Hr').
    rewrite (GetOrSet_routes _ _ _ _ _ _ Hr') in Hr.
    destruct (Gomap.lookup seg' k') as [x|]; injection Hr as <-; cbn;
      [by left|].
    right; left. by eexists _, _, _, _.
  - destruct (GetAndDelete_Ok _ _ _ Hr) as (h' & seg' & Hr').
    rewrite (GetAndDelete_routes _ _ _ _ Hr') in Hr.
    destruct (Gomap.lookup seg' k') as [x|]; injection Hr as <-; cbn;
      [|by left].
    right; left. by eexists _, _, _, _.
  - destruct (Update_Ok _ _ _ _ _ _ Hr) as (h' & seg' & Hr').
    rewrite (Update_routes _ _ _ _ _ _ _ Hr') in Hr.
    injection Hr as <-. cbn.
    right; left. by eexists _, _, _, _.
  - destruct (UpdateExisting_Ok _ _ _ _ _ Hr) as (h' & seg' & Hr').
    rewrite (UpdateExisting_routes _ _ _ _ _ _ Hr') in Hr.
    destruct (Gomap.lookup seg' k') as [x|]; injection Hr as <-; cbn;
      [|by left].
    right; left. by eexists _, _, _, _.
Qed.

Lemma withSegment_elsewhere s k h seg m (i : nat) :
  routes s k h seg ->
  Inthash.Get (hash s) k <> Ok (Z.of_nat i) ->
  segment (withSegment s h m) !! i = segment s !! i.
Proof.
  intros Hr Hne. destruct (routes_lookup _ _ _ _ Hr) as [Hh _].
  destruct Hr as (Hk & _). unfold withSegment; cbn.
  apply list_lookup_insert_ne. intros <-. apply Hne.
  rewrite Hk. f_equal. lia.
Qed.

Lemma without_elsewhere s (keys : list Key) (i : nat) :
  Forall (fun k => Inthash.Get (hash s) k <> Ok (Z.of_nat i)) keys ->
  segment (without s keys) !! i = segment s !! i.
Proof.
  intros Hall. unfold without; cbn. rewrite list_lookup_imap.
  destruct (segment s !! i) as [seg|]; cbn; [|done].
  f_equal. unfold less. apply filter_all. intros e He.
  apply negb_true_iff, not_true_is_false.
  intros (k & Hin & [_ Hr]%andb_prop)%existsb_exists.
  rewrite List.Forall_forall in Hall. apply (Hall k Hin).
  unfold route_is in Hr.
  destruct (Inthash.Get (hash s) k) as [h|]; [|done].
  f_equal. by apply Z.eqb_eq.
Qed.

(** Keys that are a NaN *)

Lemma lookup_NaN m k : Gomap.isNaN k = true -> Gomap.lookup m k = None.
Proof.
  intros Hk. destruct (Gomap.lookup m k) as [x|] eqn:Hl; [|done].
  apply lookup_Some_refl in Hl. by rewrite key_eqb_refl, Hk in Hl.
Qed.

Lemma NaN_routed k : Gomap.isNaN k = true -> routed k = true.
Proof. by destruct k. Qed.

(** The segments that the mask leaves out *)

Lemma Get_below_power (n : Z) (hs : Hash) k (i : Z) :
  1 <= n < 2 ^ 63 ->
  hmask hs = mask n ->
  Inthash.Get hs k = Ok i ->
  i < 2 ^ Z.min (Z.log2 n) 16.
Proof.
  intros Hn Hmask HGet.
  pose proof (RouterFacts.mask_of_count n Hn) as Hm.
  assert (Hlog : 0 <= Z.log2 n) by apply Z.log2_nonneg.
  unfold Inthash.Get in HGet.
  destruct (keyBytes k) as [bytes|] eqn:Hb; cbn in HGet; [|discriminate].
  injection HGet as <-.
  rewrite Hmask, Hm.
  replace (2 ^ Z.min (Z.log2 n) 16 - 1) with (Z.ones (Z.min (Z.log2 n) 16))
    by (rewrite Z.ones_equiv; lia).
  rewrite Z.land_ones by lia.
  apply Z.mod_pos_bound. apply Z.pow_pos_nonneg; lia.
Qed.

End Facts.

End ComposeFacts.

(** ** Further properties of the operations *)

Module MapExtras.
Import Inthash Gomap GomapFacts InthashFacts Segmentedmap SegmentedmapFacts
  DeleteFacts CallFacts ConstructionFacts Invariant InvariantFacts LoopFacts
  ComposeFacts.

#[local] Arguments index : simpl never.
#[local] Arguments Inthash.Get : simpl never.

Section Extras.
Context {V : Type} `{Zero V}.
Implicit Types (s : Map V) (k : Key) (v : V).

(** X3.  A map constructed for [n] segments, [n] at least 1, is empty:
    [Get] finds nothing under any key the router returns on, [Len] is 0,
    [Keys] and [Values] are empty; it has [n] segments and [n] mutexes,
    is flagged segmented exactly when [n] is above 1, and the capacity
    makes no difference.  [NewMap] is such a map with one segment. *)
Theorem new_map_is_empty (n capacity : Z) s k :
  1 <= n ->
  NewSegmentedMap n capacity = Ok s ->
  routed k = true ->
  Get s k = Ok (zero, false)
  /\ Len s = Ok 0
  /\ Keys s = Ok []
  /\ Values s = Ok []
  /\ length (segment s) = Z.to_nat n
  /\ length (mutex s) = Z.to_nat n
  /\ segmented s = (if n >? 1 then true else false)
  /\ (forall capacity', NewSegmentedMap n capacity' = Ok s)
  /\ exists s1, NewMap (V := V) = Ok s1 /\ length (segment s1) = 1%nat
                /\ segmented s1 = false.
Proof.
  intros Hn Hs Hk.
  pose proof (built_new n capacity s Hn Hs) as Hb.
  destruct (NewSegmentedMap_routes n capacity s k Hn Hs Hk) as [h Hr].
  pose proof (built_mutex s Hb) as Hmu.
  pose proof (built_count s Hb) as Hc.
  rewrite (routes_Get _ _ _ _ Hr), (Len_entries s Hmu),
    (Keys_entries s Hc Hmu), (Values_entries s Hc Hmu).
  rewrite NewSegmentedMap_Ok in Hs by lia. injection Hs as <-.
  unfold entries. cbn. rewrite concat_replicate_nil, !length_replicate.
  repeat split.
  - intros capacity'. by rewrite NewSegmentedMap_Ok by lia.
  - eexists. repeat split.
Qed.

(** X4.  On a map constructed for [n] segments, [n] at least 1, every run
    of calls of the public operations leaves the map with its [n]
    segments and [n] mutexes and its router, every entry in the segment
    that the router sends its key to, and no two entries of a segment
    under equal keys. *)
Theorem calls_keep_the_map_built {C R : Type} (n capacity : Z) s
    (ops : list (Op V C R)) (c : C) st :
  1 <= n ->
  NewSegmentedMap n capacity = Ok s ->
  Forall (fun op => match op with
                    | OpDelete order _ => rearranges order
                    | _ => True
                    end) ops ->
  calls (s, c) ops = Ok st ->
  built (fst st)
  /\ hash (fst st) = NewHash n
  /\ length (segment (fst st)) = Z.to_nat n
  /\ length (mutex (fst st)) = Z.to_nat n.
Proof.
  intros Hn Hs Hops Hcalls.
  pose proof (built_new n capacity s Hn Hs) as Hb.
  destruct (calls_built ops s c st Hb Hops Hcalls) as [Hb' Hh].
  assert (Hhash : hash s = NewHash n).
  { rewrite NewSegmentedMap_Ok in Hs by lia. by injection Hs as <-. }
  assert (Hlen : length (segment (fst st)) = Z.to_nat n).
  { pose proof (built_hash _ Hb') as Hh'. rewrite Hh, Hhash in Hh'.
    injection Hh' as Hseg _. lia. }
  split; [done|]. split; [congruence|]. split; [done|].
  by rewrite (built_mutex _ Hb').
Qed.

(** X5.  On a map constructed for at least one segment no run of calls
    of the public operations panics, whatever the callbacks, when the
    keys are keys that the router returns on. *)
Theorem calls_do_not_panic {C R : Type} (n capacity : Z) s
    (ops : list (Op V C R)) (c : C) :
  1 <= n ->
  NewSegmentedMap n capacity = Ok s ->
  Forall admissible ops ->
  exists st, calls (s, c) ops = Ok st.
Proof.
  intros Hn Hs Hops. apply calls_total; [|done].
  by apply (built_new n capacity).
Qed.

(** X6.  On a built map [Len], [Keys] and [Values] return; [Keys] and
    [Values] have as many elements as [Len] counts; every key listed by
    [Keys] that equals itself is found by [Get], with a value that
    [Values] lists; and whatever [Get] finds under a key is listed by
    [Values], under a key of [Keys] equal to it. *)
Theorem Keys_Values_Len_agree_with_Get s :
  built s ->
  exists keys values,
    Keys s = Ok keys
    /\ Values s = Ok values
    /\ Len s = Ok (Z.of_nat (length keys))
    /\ length values = length keys
    /\ (forall k, In k keys -> Gomap.key_eqb k k = true ->
          exists v, Get s k = Ok (v, true) /\ In v values)
    /\ (forall k v, Get s k = Ok (v, true) ->
          In v values
          /\ exists k', In k' keys /\ Gomap.key_eqb k' k = true).
Proof.
  intros Hb.
  pose proof (built_mutex s Hb) as Hmu.
  pose proof (built_count s Hb) as Hc.
  exists (map fst (entries s)), (map snd (entries s)).
  split; [by apply Keys_entries|]. split; [by apply Values_entries|].
  split; [by rewrite Len_entries, length_map|].
  split; [by rewrite !length_map|]. split.
  - intros k (e & He & Hin)%in_map_iff Hk. destruct e as [k0 v]. cbn in He.
    subst k0. exists v. split; [by apply listed_found|].
    apply in_map_iff. by exists (k, v).
  - intros k v (k' & Hin & Hk')%found_listed. split.
    + apply in_map_iff. by exists (k', v).
    + exists k'. split; [|done]. apply in_map_iff. by exists (k', v).
Qed.

(** X7.  On a built map a [Set] under a key that [Get] did not find
    makes [Len] one more, and a [Set] under a key that [Get] found
    leaves [Len] as it was. *)
Theorem Set_adds_an_entry_for_a_new_key_only s k v s' x (found : bool) :
  built s ->
  Set_ s k v = Ok s' ->
  Get s k = Ok (x, found) ->
  exists n, Len s = Ok n /\ Len s' = Ok (if found then n else n + 1).
Proof.
  intros Hb HSet (h & seg & Hr & Hans)%Get_routes.
  rewrite (Set_routes _ _ _ _ _ Hr) in HSet. injection HSet as <-.
  destruct Hr as (Hk & Hmu & Hseg).
  destruct (Len_withSegment s h seg (assign seg k v) (built_mutex s Hb) Hseg)
    as (n & Hn & Hn').
  exists n. split; [done|]. rewrite Hn'. f_equal.
  rewrite length_assign. unfold answer in Hans.
  destruct (Gomap.lookup seg k); injection Hans as _ ->; lia.
Qed.

(** X8.  [GetAndDelete] returns what [Get] returns, value and flag, and
    leaves the map without the entries under the key: [Get] then finds
    nothing under it and finds what it found under every key that does
    not equal it; when nothing was found the value is the zero value and
    the map is as it was; on a built map [Len] is one less when the key
    was found. *)
Theorem GetAndDelete_returns_and_removes s k v (found : bool) :
  Get s k = Ok (v, found) ->
  GetAndDelete s k = Ok (without s [k], (v, found))
  /\ Get (without s [k]) k = Ok (zero, false)
  /\ (forall k', Gomap.key_eqb k k' = false ->
                 Get (without s [k]) k' = Get s k')
  /\ (found = false -> v = zero /\ without s [k] = s)
  /\ (built s ->
      exists n, Len s = Ok n
                /\ Len (without s [k]) = Ok (if found then n - 1 else n)).
Proof.
  intros HGet. pose proof HGet as (h & seg & Hr & Hans)%Get_routes.
  unfold answer in Hans.
  assert (Habs : found = false -> v = zero /\ without s [k] = s).
  { intros ->. split.
    - destruct (Gomap.lookup seg k); [done|]. by injection Hans as ->.
    - apply without_absent. constructor; [|constructor]. eauto. }
  split.
  { rewrite (GetAndDelete_routes _ _ _ _ Hr).
    destruct (Gomap.lookup seg k) as [x|] eqn:Hl.
    - injection Hans as -> ->.
      by rewrite (withSegment_delete_without _ _ _ _ Hr).
    - injection Hans as -> ->. destruct Habs as [_ ->]; done. }
  split; [apply (Get_without_listed s [k] k (v, found)); [by left|done]|].
  split; [intros k' Hk'; apply Get_without_other; by constructor|].
  split; [done|].
  intros Hb. destruct found.
  - rewrite <- (withSegment_delete_without _ _ _ _ Hr).
    destruct (routes_lookup _ _ _ _ Hr) as [_ Hi].
    destruct (built_segments s Hb _ _ Hi) as [Hd _].
    destruct Hr as (Hk & Hmu & Hseg).
    destruct (Len_withSegment s h seg (Gomap.delete seg k)
                (built_mutex s Hb) Hseg) as (n & Hn & Hn').
    exists n. split; [done|]. rewrite Hn'. f_equal.
    pose proof (length_delete seg k Hd) as Hlen.
    destruct (Gomap.lookup seg k); [lia|done].
  - destruct Habs as [_ ->]; [done|].
    exists (Z.of_nat (length (entries s))).
    split; by apply Len_entries, built_mutex.
Qed.

(** X9.  When [Get] finds [current] under [k], [UpdateExisting] calls
    [fn] once, on [current], returns the value [fn] has made with the
    flag true and stores it under [k] as [Set] would: [Get] then finds
    it, finds what it found under every key that does not equal [k],
    and [Len] is as it was.  When [Get] finds nothing under [k],
    [UpdateExisting] does not call [fn], leaves the map as it is and
    returns the zero value with the flag false. *)
Theorem UpdateExisting_changes_what_Get_finds {C : Type} s k
    (fn : V -> C -> V * C) (c : C) (current : V) (found : bool) :
  Get s k = Ok (current, found) ->
  (found = true ->
   exists s',
     UpdateExisting s k fn c
     = Ok (s', (fst (fn current c), true), snd (fn current c))
     /\ Set_ s k (fst (fn current c)) = Ok s'
     /\ Get s' k = Ok (fst (fn current c), true)
     /\ (forall k', Gomap.key_eqb k k' = false -> Get s' k' = Get s k')
     /\ (built s -> exists n, Len s = Ok n /\ Len s' = Ok n))
  /\ (found = false ->
      UpdateExisting s k fn c = Ok (s, (zero, false), c)).
Proof.
  intros (h & seg & Hr & Hans)%Get_routes. unfold answer in Hans.
  rewrite (UpdateExisting_routes _ _ _ _ _ _ Hr).
  destruct (Gomap.lookup seg k) as [x|] eqn:Hl; injection Hans as -> ->.
  - split; [intros _|done].
    eexists. split; [reflexivity|].
    split; [by apply Set_routes|].
    split; [apply Get_assign_same; [done|by eapply lookup_Some_refl]|].
    split; [intros k' Hk'; by apply Get_assign_other|].
    intros Hb. destruct Hr as (Hk & Hmu & Hseg).
    destruct (Len_withSegment s h seg (assign seg k (fst (fn x c)))
                (built_mutex s Hb) Hseg) as (n & Hn & Hn').
    exists n. split; [done|]. rewrite Hn'. f_equal.
    rewrite length_assign, Hl. lia.
  - split; [done|by intros _].
Qed.

(** X10.  [Calculate] returns [fn] applied to what [Get] finds under
    the key, with the flag true, having called [fn] once; when [Get]
    finds nothing it returns nil with the flag false and does not call
    [fn].  Either way the map is as it was. *)
Theorem Calculate_applies_fn_to_what_Get_finds {C R : Type} s k
    (fn : V -> C -> R * C) (c : C) (current : V) (found : bool) :
  Get s k = Ok (current, found) ->
  Calculate s k fn c
  = Ok (if found
        then (Some (fst (fn current c)), true, snd (fn current c))
        else (None, false, c))
  /\ call (s, c) (OpCalculate k fn)
     = Ok (s, if found then snd (fn current c) else c).
Proof.
  intros (h & seg & Hr & Hans)%Get_routes. unfold answer in Hans.
  cbn [call]. rewrite (Calculate_routes _ _ _ _ _ _ Hr).
  by destruct (Gomap.lookup seg k) as [x|]; injection Hans as -> ->.
Qed.

(** X11.  On a built map [Range] returns, and is one loop over the
    entries of the segments, segment after segment: [run] sees the
    entries until it first returns false and none after that, also
    none of the segments that follow.  A callback that never stops
    the loop sees each entry once: the keys it sees are those of
    [Keys], up to their order. *)
Theorem Range_runs_until_stopped {C : Type} s
    (run : Key -> V -> C -> bool * C) (c : C) :
  built s ->
  Range s run c = Ok (snd (rangeEntries (entries s) run c))
  /\ (forall pre e post,
        entries s = pre ++ e :: post ->
        fst (rangeEntries pre run c) = true ->
        fst (run (fst e) (snd e) (snd (rangeEntries pre run c))) = false ->
        Range s run c
        = Ok (snd (run (fst e) (snd e) (snd (rangeEntries pre run c)))))
  /\ exists keys visited,
       Keys s = Ok keys
       /\ Range s noting [] = Ok visited
       /\ Permutation visited keys.
Proof.
  intros Hb.
  pose proof (built_mutex s Hb) as Hmu.
  pose proof (built_count s Hb) as Hc.
  split; [by apply Range_entries|]. split.
  - intros pre [k0 v0] post He Hpre Hstop.
    rewrite (Range_entries s run c Hmu), He, rangeEntries_app, Hpre.
    cbn in *. destruct (run k0 v0 _) as [ok c']. cbn in *. by subst ok.
  - exists (map fst (entries s)), (map fst (entries s)).
    split; [by apply Keys_entries|]. split; [|done].
    by rewrite (Range_entries s noting [] Hmu), rangeEntries_noting.
Qed.

(** X12.  Of two [Set]s under a key that is not a NaN only the second
    counts: the map is the one the second alone would have made, [Get]
    finds the second value, and on a built map [Len] is what it was
    after the first. *)
Theorem Set_overwrites s k v1 v2 s1 :
  Gomap.isNaN k = false ->
  Set_ s k v1 = Ok s1 ->
  exists s2,
    Set_ s1 k v2 = Ok s2
    /\ Set_ s k v2 = Ok s2
    /\ Get s2 k = Ok (v2, true)
    /\ (built s -> exists n, Len s1 = Ok n /\ Len s2 = Ok n).
Proof.
  intros Hk%key_eqb_not_NaN (h & seg & Hr & ->)%Set_Ok.
  exists (withSegment s h (assign seg k v2)).
  split.
  { rewrite (Set_routes _ _ _ _ _ (routes_assigned _ _ _ _ _ Hr)).
    by rewrite withSegment_twice, assign_assign. }
  split; [by apply Set_routes|].
  split; [by apply Get_assign_same|].
  intros Hb. destruct Hr as (Hg & Hmu & Hseg).
  destruct (Len_withSegment s h seg (assign seg k v1)
              (built_mutex s Hb) Hseg) as (n & Hn & Hn1).
  destruct (Len_withSegment s h seg (assign seg k v2)
              (built_mutex s Hb) Hseg) as (n' & Hn' & Hn2).
  rewrite Hn in Hn'. injection Hn' as <-.
  eexists. split; [exact Hn1|]. rewrite Hn2. f_equal.
  rewrite !length_assign. by destruct (Gomap.lookup seg k).
Qed.

(** X13.  A [Delete] of two lists of keys one after the other leaves
    the map that one [Delete] of both lists leaves, in whatever order
    [range] takes the segments each time; and a [Delete] repeated
    changes nothing the second time. *)
Theorem Delete_in_parts
    (order1 order2 order : list (Z * list Key) -> list (Z * list Key))
    s (keys1 keys2 : list Key) :
  rearranges order1 -> rearranges order2 -> rearranges order ->
  Forall (fun k => exists r, Get s k = Ok r) (keys1 ++ keys2) ->
  exists s1 s2,
    DeleteIn order1 s keys1 = Ok s1
    /\ DeleteIn order2 s1 keys2 = Ok s2
    /\ DeleteIn order s (keys1 ++ keys2) = Ok s2
    /\ DeleteIn order2 s1 keys1 = Ok s1.
Proof.
  intros Ho1 Ho2 Ho Hall.
  pose proof Hall as [Hall1 Hall2]%Forall_app.
  destruct (DeleteIn_total order1 s keys1 Ho1 Hall1) as [s1 Hs1].
  pose proof (DeleteIn_Ok order1 s keys1 s1 Ho1 Hs1) as [-> _].
  assert (Hret : forall keys,
             Forall (fun k => exists r, Get s k = Ok r) keys ->
             Forall (fun k => exists r, Get (without s keys1) k = Ok r)
               keys).
  { intros keys HF. eapply Forall_impl; [exact HF|]. cbn.
    intros k [r Hr]. by eapply Get_without_returns. }
  destruct (DeleteIn_total order2 _ keys2 Ho2 (Hret _ Hall2)) as [s2 Hs2].
  pose proof (DeleteIn_Ok order2 _ keys2 s2 Ho2 Hs2) as [-> _].
  destruct (DeleteIn_total order s _ Ho Hall) as [s3 Hs3].
  pose proof (DeleteIn_Ok order s _ s3 Ho Hs3) as [-> _].
  destruct (DeleteIn_total order2 _ keys1 Ho2 (Hret _ Hall1)) as [s4 Hs4].
  pose proof (DeleteIn_Ok order2 _ keys1 s4 Ho2 Hs4) as [-> _].
  exists (without s keys1), (without (without s keys1) keys2).
  split; [done|]. split; [done|].
  split; [by rewrite Hs3, without_app|].
  by rewrite Hs4, without_twice.
Qed.

(** X14.  A call of a public operation changes no segment but those
    that the router sends one of its keys to, and changes neither the
    number of segments, nor the mutexes, nor the router, nor the flag. *)
Theorem call_changes_the_segments_of_its_keys_only {C R : Type} s (c : C)
    (op : Op V C R) s' c' :
  (match op with OpDelete order _ => rearranges order | _ => True end) ->
  call (s, c) op = Ok (s', c') ->
  mutex s' = mutex s
  /\ hash s' = hash s
  /\ segmented s' = segmented s
  /\ length (segment s') = length (segment s)
  /\ forall i : nat,
       Forall (fun k => Inthash.Get (hash s) k <> Ok (Z.of_nat i))
         (keys_of op) ->
       segment s' !! i = segment s !! i.
Proof.
  intros Hord Hcall.
  destruct (call_shape s c op s' c' Hord Hcall)
    as [->|[(k & h & seg & m & Hkeys & Hr & ->)| ->]].
  - by repeat split.
  - repeat split; [by cbn; rewrite length_insert|].
    intros i Hall. rewrite Hkeys in Hall.
    apply (withSegment_elsewhere s k h seg m i Hr).
    by apply Forall_inv in Hall.
  - repeat split; [by cbn; rewrite length_imap|].
    intros i Hall. by apply without_elsewhere.
Qed.

(** X15.  A [Set] under a key that is a NaN returns on a built map and
    adds an entry every time: [Len] is one more, [Keys] lists the key,
    yet [Get] does not find it, [GetAndDelete] returns the zero value
    and false and [Delete] leaves the map as it is, so that the entry
    stays. *)
Theorem NaN_entries_pile_up s k v :
  built s ->
  Gomap.isNaN k = true ->
  exists s',
    Set_ s k v = Ok s'
    /\ Get s' k = Ok (zero, false)
    /\ (exists n, Len s = Ok n /\ Len s' = Ok (n + 1))
    /\ GetAndDelete s' k = Ok (s', (zero, false))
    /\ (forall order, rearranges order -> DeleteIn order s' [k] = Ok s')
    /\ exists keys, Keys s' = Ok keys /\ In k keys.
Proof.
  intros Hb Hk.
  destruct (built_routes s k Hb (NaN_routed k Hk)) as (h & seg & Hr & Hi).
  pose proof (routes_assigned s k h seg (assign seg k v) Hr) as Hr'.
  pose proof (built_assign s k h seg v Hb Hr) as Hb'.
  assert (HG : Get (withSegment s h (assign seg k v)) k = Ok (zero, false)).
  { rewrite (routes_Get _ _ _ _ Hr'). unfold answer.
    by rewrite lookup_NaN. }
  exists (withSegment s h (assign seg k v)).
  split; [by apply Set_routes|]. split; [done|]. split.
  { destruct Hr as (Hg & Hmu & Hseg).
    destruct (Len_withSegment s h seg (assign seg k v)
                (built_mutex s Hb) Hseg) as (n & Hn & Hn').
    exists n. split; [done|]. rewrite Hn'. f_equal.
    rewrite length_assign, lookup_NaN by done. lia. }
  split.
  { rewrite (GetAndDelete_routes _ _ _ _ Hr'). by rewrite lookup_NaN. }
  split.
  { intros order Hord.
    destruct (DeleteIn_total order (withSegment s h (assign seg k v)) [k]
                Hord) as [s'' Hs''].
    { constructor; [eauto|constructor]. }
    rewrite Hs''. f_equal.
    apply (DeleteIn_Ok order) in Hs'' as [-> _]; [|done].
    apply without_absent. constructor; [eauto|constructor]. }
  exists (map fst (entries (withSegment s h (assign seg k v)))).
  split; [apply Keys_entries; [apply built_count|apply built_mutex]; done|].
  apply in_map_iff. exists (k, v). split; [done|].
  apply In_entries. exists (Z.to_nat h), (assign seg k v). split.
  - cbn. apply list_lookup_insert_eq. by eapply lookup_lt_Some.
  - apply In_assign.
Qed.

(** X16.  On a map constructed for [n] segments, [n] from 1 up to the
    largest [int], the segments whose index is at least the largest
    power of two that is at most [n] and at most 65536 are empty after
    every run of calls of the public operations. *)
Theorem segments_past_the_mask_stay_empty {C R : Type} (n capacity : Z) s
    (ops : list (Op V C R)) (c : C) st (i : nat) seg :
  1 <= n < 2 ^ 63 ->
  NewSegmentedMap n capacity = Ok s ->
  Forall (fun op => match op with
                    | OpDelete order _ => rearranges order
                    | _ => True
                    end) ops ->
  calls (s, c) ops = Ok st ->
  segment (fst st) !! i = Some seg ->
  2 ^ Z.min (Z.log2 n) 16 <= Z.of_nat i ->
  seg = [].
Proof.
  intros Hn Hs Hops Hcalls Hi Hpow.
  pose proof (built_new n capacity s ltac:(lia) Hs) as Hb.
  destruct (calls_built ops s c st Hb Hops Hcalls) as [Hb' Hh].
  assert (Hhash : hash s = NewHash n).
  { rewrite NewSegmentedMap_Ok in Hs by lia. by injection Hs as <-. }
  destruct (built_segments _ Hb' i seg Hi) as [_ Hp].
  destruct seg as [|e seg]; [done|]. exfalso.
  apply Forall_inv in Hp. rewrite Hh, Hhash in Hp.
  pose proof (Get_below_power n (NewHash n) (fst e) (Z.of_nat i) Hn eq_refl
                Hp).
  lia.
Qed.

(** X17.  On the map constructed with the segment count 0, [Len]
    returns 0 and [Range] returns without a call of [run]; [Values],
    and for every key that the router returns on [Delete],
    [DeleteConditional], [GetOrSet], [GetAndDelete], [Update],
    [UpdateExisting] and [Calculate], panic on the index 0 of an empty
    slice, before any callback is called. *)
Theorem operations_on_a_map_of_no_segment {C R : Type} (capacity : Z) s k
    (c : C) :
  NewSegmentedMap 0 capacity = Ok s ->
  routed k = true ->
  Len s = Ok 0
  /\ (forall run : Key -> V -> C -> bool * C, Range s run c = Ok c)
  /\ Values s = Panic (IndexOutOfRange 0 0)
  /\ (forall order, rearranges order ->
        DeleteIn order s [k] = Panic (IndexOutOfRange 0 0))
  /\ (forall fn : V -> C -> bool * C,
        DeleteConditional s k fn c = Panic (IndexOutOfRange 0 0))
  /\ (forall fn : C -> V * C,
        GetOrSet s k fn c = Panic (IndexOutOfRange 0 0))
  /\ GetAndDelete s k = Panic (IndexOutOfRange 0 0)
  /\ (forall d (fn : V -> C -> V * C),
        Update s k d fn c = Panic (IndexOutOfRange 0 0))
  /\ (forall fn : V -> C -> V * C,
        UpdateExisting s k fn c = Panic (IndexOutOfRange 0 0))
  /\ (forall fn : V -> C -> R * C,
        Calculate s k fn c = Panic (IndexOutOfRange 0 0)).
Proof.
  intros Hs Hk. rewrite NewSegmentedMap_Ok in Hs by lia.
  injection Hs as <-.
  destruct (Get_routed (NewHash 0) k Hk) as [h Hh].
  pose proof (Get_single_segment 0 (NewHash 0) k h ltac:(lia) eq_refl Hh).
  subst h.
  split; [reflexivity|]. split; [reflexivity|]. split; [reflexivity|].
  split.
  { intros order Hord. unfold DeleteIn. cbn [hash groupKeys].
    rewrite Hh. cbn [bind]. rewrite lookup_empty. cbn [default app].
    rewrite insert_empty, map_to_list_singleton.
    pose proof (Hord [(0, [k])]) as Hp. symmetry in Hp.
    apply Permutation_length_1_inv in Hp. by rewrite Hp. }
  split; [intros fn; unfold DeleteConditional; cbn [hash]; by rewrite Hh|].
  split; [intros fn; unfold GetOrSet, Get; cbn [hash]; by rewrite Hh|].
  split; [unfold GetAndDelete; cbn [hash]; by rewrite Hh|].
  split; [intros d fn; unfold Update; cbn [hash]; by rewrite Hh|].
  split; [intros fn; unfold UpdateExisting; cbn [hash]; by rewrite Hh|].
  intros fn. unfold Calculate. cbn [hash]. by rewrite Hh.
Qed.

End Extras.

End MapExtras.

(** ** The router on integer keys *)

Module KeyExtras.
Import Inthash InthashFacts Segmentedmap.

#[local] Arguments Inthash.Get : simpl never.

(** X18.  The router reads an [int] key through its low 32 bits only,
    as it reads an [int32] key: two [int] keys that differ by a
    multiple of 2^32 have the same index under every router, an [int]
    and an [int32] key of one value too, and in every map such keys
    are sent to the same segment. *)
Theorem int_keys_route_by_their_low_32_bits (hs : Hash) (x y : Z) :
  x mod 2 ^ 32 = y mod 2 ^ 32 ->
  Inthash.Get hs (KInt x) = Inthash.Get hs (KInt y)
  /\ Inthash.Get hs (KInt x) = Inthash.Get hs (KInt32 y)
  /\ forall (V : Type) (s : Map V) h seg,
       routes s (KInt x) h seg -> routes s (KInt y) h seg.
Proof.
  intros Hxy.
  assert (Hb : keyBytes (KInt x) = keyBytes (KInt y)
               /\ keyBytes (KInt x) = keyBytes (KInt32 y)).
  { unfold keyBytes. cbn [KindOf ValueInt bind]. unfold uint32.
    by rewrite Hxy. }
  destruct Hb as [Hb Hb32].
  assert (HG : forall hs', Inthash.Get hs' (KInt x) = Inthash.Get hs' (KInt y)).
  { intros hs'. unfold Inthash.Get. by rewrite Hb. }
  split; [apply HG|]. split; [unfold Inthash.Get; by rewrite Hb32|].
  intros V s h seg (Hk & Hmu & Hseg). unfold routes.
  by rewrite <- HG.
Qed.

Lemma int_keys_route_by_their_low_32_bits_witness :
  Inthash.Get (NewHash 8) (KInt 1) = Inthash.Get (NewHash 8) (KInt 4294967297).
Proof.
  exact (proj1 (int_keys_route_by_their_low_32_bits (NewHash 8) 1 4294967297
                  eq_refl)).
Defined.

End KeyExtras.

(** ** The further properties at the maps of the tests *)

Module MapExtraWitnesses.
Import Inthash Gomap GomapFacts InthashFacts Segmentedmap SegmentedmapFacts
  DeleteFacts CallFacts ConstructionFacts Invariant InvariantFacts LoopFacts
  ComposeFacts MapExtras Fixtures.
Local Open Scope string_scope.

#[local] Arguments index : simpl never.
#[local] Arguments Inthash.Get : simpl never.

Lemma fresh_map_2 :
  NewSegmentedMap (V := string) 2 1
  = Ok {| segment := [[]; []];
          mutex := [mkRWMutex; mkRWMutex];
          hash := NewHash 2;
          segmented := true |}.
Proof. reflexivity. Defined.

Lemma test_map_is_built : built test_map.
Proof.
  pose proof test_map_built as Ht.
  apply bind_Ok in Ht as (s0 & Hs0 & HSet).
  pose proof (built_new 2 1 s0 ltac:(lia) Hs0) as Hb.
  apply Set_Ok in HSet as (h & seg & Hr & ->).
  by apply built_assign.
Qed.

Lemma rearranges_id : rearranges (@id (list (Z * list Key))).
Proof. intros l. reflexivity. Qed.

Lemma new_map_is_empty_witness :
  exists s : Map string,
    NewSegmentedMap 2 1 = Ok s
    /\ Get s (KInt 1) = Ok (zero, false)
    /\ Len s = Ok 0.
Proof.
  eexists. split; [exact fresh_map_2|].
  destruct (new_map_is_empty 2 1 _ (KInt 1) ltac:(lia) fresh_map_2 eq_refl)
    as (HG & HL & _).
  split; [exact HG|exact HL].
Defined.

Lemma calls_keep_the_map_built_witness :
  built test_map /\ length (segment test_map) = 2%nat.
Proof.
  assert (Hc : calls (C := nat) (R := unit)
                 ({| segment := [[]; []];
                     mutex := [mkRWMutex; mkRWMutex];
                     hash := NewHash 2;
                     segmented := true |}, 0%nat)
                 [OpSet (KInt 1) "value1"; OpLen]
               = Ok (test_map, 0%nat))
    by (vm_compute; reflexivity).
  destruct (calls_keep_the_map_built 2 1 _
              [OpSet (KInt 1) "value1"; OpLen] _ _ ltac:(lia) fresh_map_2
              ltac:(repeat constructor) Hc) as (Hb & _ & Hl & _).
  split; [exact Hb|exact Hl].
Defined.

Lemma calls_do_not_panic_witness :
  exists st,
    calls (C := nat) (R := unit)
      ({| segment := [[]; []];
          mutex := [mkRWMutex; mkRWMutex];
          hash := NewHash 2;
          segmented := true |}, 0%nat)
      [OpSet (KInt 1) "value1"; OpKeys; OpDelete id [KInt 1; KInt 2]]
    = Ok st.
Proof.
  apply (calls_do_not_panic 2 1 _ _ _ ltac:(lia) fresh_map_2).
  repeat (apply Forall_cons; split); try apply Forall_nil;
    split; try exact I; try exact rearranges_id;
    repeat (apply Forall_cons; split); try apply Forall_nil;
    reflexivity.
Defined.

Lemma Keys_Values_Len_agree_with_Get_witness :
  exists keys values,
    Keys test_map = Ok keys
    /\ Values test_map = Ok values
    /\ Len test_map = Ok (Z.of_nat (length keys)).
Proof.
  destruct (Keys_Values_Len_agree_with_Get test_map test_map_is_built)
    as (keys & values & HK & HV & HL & _).
  exists keys, values. split; [exact HK|]. split; [exact HV|exact HL].
Defined.

Lemma Set_adds_an_entry_for_a_new_key_only_witness :
  exists n,
    Len test_map = Ok n
    /\ Len (withSegment test_map 1 [(KInt 2, "value2")]) = Ok (n + 1).
Proof.
  assert (HSet : Set_ test_map (KInt 2) "value2"
                 = Ok (withSegment test_map 1 [(KInt 2, "value2")]))
    by (vm_compute; reflexivity).
  assert (HGet : Get test_map (KInt 2) = Ok (zero, false))
    by (vm_compute; reflexivity).
  exact (Set_adds_an_entry_for_a_new_key_only test_map (KInt 2) "value2" _
           zero false test_map_is_built HSet HGet).
Defined.

Lemma GetAndDelete_returns_and_removes_witness :
  GetAndDelete test_map (KInt 1)
  = Ok (without test_map [KInt 1], ("value1", true)).
Proof.
  assert (HGet : Get test_map (KInt 1) = Ok ("value1", true))
    by (vm_compute; reflexivity).
  exact (proj1 (GetAndDelete_returns_and_removes test_map (KInt 1)
                  "value1" true HGet)).
Defined.

Lemma UpdateExisting_changes_what_Get_finds_witness :
  UpdateExisting test_map (KInt 2) (counting (fun v => v ++ "abc")) 0%nat
  = Ok (test_map, (zero, false), 0%nat).
Proof.
  assert (HGet : Get test_map (KInt 2) = Ok (zero, false))
    by (vm_compute; reflexivity).
  exact (proj2 (UpdateExisting_changes_what_Get_finds test_map (KInt 2)
                  (counting (fun v => v ++ "abc")) 0%nat zero false HGet)
           eq_refl).
Defined.

Lemma Calculate_applies_fn_to_what_Get_finds_witness :
  Calculate test_map (KInt 1) (counting (fun v => v ++ "abc")) 0%nat
  = Ok (Some ("value1" ++ "abc"), true, 1%nat).
Proof.
  assert (HGet : Get test_map (KInt 1) = Ok ("value1", true))
    by (vm_compute; reflexivity).
  exact (proj1 (Calculate_applies_fn_to_what_Get_finds test_map (KInt 1)
                  (counting (fun v => v ++ "abc")) 0%nat "value1" true
                  HGet)).
Defined.

Lemma Range_runs_until_stopped_witness :
  Range test_map noting []
  = Ok (snd (rangeEntries (entries test_map) noting [])).
Proof.
  exact (proj1 (Range_runs_until_stopped test_map noting []
                  test_map_is_built)).
Defined.

Lemma Set_overwrites_witness :
  exists s2,
    Set_ test_map (KInt 1) "value2" = Ok s2
    /\ Get s2 (KInt 1) = Ok ("value2", true).
Proof.
  assert (HSet : Set_ (V := string)
                   {| segment := [[]; []];
                      mutex := [mkRWMutex; mkRWMutex];
                      hash := NewHash 2;
                      segmented := true |} (KInt 1) "value1"
                 = Ok test_map)
    by (vm_compute; reflexivity).
  destruct (Set_overwrites _ (KInt 1) "value1" "value2" test_map eq_refl
              HSet) as (s2 & H1 & _ & HG & _).
  exists s2. split; [exact H1|exact HG].
Defined.

Lemma Delete_in_parts_witness :
  exists s1 s2,
    DeleteIn id test_map [KInt 1] = Ok s1
    /\ DeleteIn id s1 [KInt 2] = Ok s2
    /\ DeleteIn id test_map [KInt 1; KInt 2] = Ok s2.
Proof.
  assert (H1 : exists r, Get test_map (KInt 1) = Ok r)
    by (vm_compute; eexists; reflexivity).
  assert (H2 : exists r, Get test_map (KInt 2) = Ok r)
    by (vm_compute; eexists; reflexivity).
  destruct (Delete_in_parts id id id test_map [KInt 1] [KInt 2]
              rearranges_id rearranges_id rearranges_id
              (Forall_cons_2 _ _ _ H1 (Forall_cons_2 _ _ _ H2 (Forall_nil_2 _))))
    as (s1 & s2 & Ha & Hb & Hc & _).
  exists s1, s2. split; [exact Ha|]. split; [exact Hb|exact Hc].
Defined.

Lemma call_changes_the_segments_of_its_keys_only_witness :
  segment (withSegment test_map 1 [(KInt 2, "value2")]) !! 0%nat
  = segment test_map !! 0%nat.
Proof.
  assert (Hc : call (C := nat) (R := unit) (test_map, 0%nat)
                 (OpSet (KInt 2) "value2")
               = Ok (withSegment test_map 1 [(KInt 2, "value2")], 0%nat))
    by (vm_compute; reflexivity).
  destruct (call_changes_the_segments_of_its_keys_only test_map 0%nat
              (OpSet (KInt 2) "value2") _ _ I Hc) as (_ & _ & _ & _ & Hi).
  apply Hi. apply Forall_cons_2; [|apply Forall_nil_2].
  vm_compute. discriminate.
Defined.

Lemma NaN_entries_pile_up_witness :
  exists s',
    Set_ test_map (KFloat64 9221120237041090561) "value" = Ok s'
    /\ Get s' (KFloat64 9221120237041090561) = Ok (zero, false).
Proof.
  destruct (NaN_entries_pile_up test_map (KFloat64 9221120237041090561)
              "value" test_map_is_built eq_refl) as (s' & HS & HG & _).
  exists s'. split; [exact HS|exact HG].
Defined.

Lemma segments_past_the_mask_stay_empty_witness :
  exists seg,
    segment (withSegment
               {| segment := replicate 10 ([] : Gomap.t string);
                  mutex := replicate 10 mkRWMutex;
                  hash := NewHash 10;
                  segmented := true |} 2 [(KInt 1, "value1")]) !! 9%nat
    = Some seg
    /\ seg = [].
Proof.
  assert (Hs : NewSegmentedMap (V := string) 10 1
               = Ok {| segment := replicate 10 [];
                       mutex := replicate 10 mkRWMutex;
                       hash := NewHash 10;
                       segmented := true |})
    by reflexivity.
  assert (Hc : calls (C := nat) (R := unit)
                 ({| segment := replicate 10 [];
                     mutex := replicate 10 mkRWMutex;
                     hash := NewHash 10;
                     segmented := true |}, 0%nat)
                 [OpSet (KInt 1) "value1"]
               = Ok (withSegment
                       {| segment := replicate 10 [];
                          mutex := replicate 10 mkRWMutex;
                          hash := NewHash 10;
                          segmented := true |} 2 [(KInt 1, "value1")],
                     0%nat))
    by (vm_compute; reflexivity).
  assert (Hi : segment (withSegment
                          {| segment := replicate 10 ([] : Gomap.t string);
                             mutex := replicate 10 mkRWMutex;
                             hash := NewHash 10;
                             segmented := true |} 2 [(KInt 1, "value1")])
               !! 9%nat = Some [])
    by reflexivity.
  exists []. split; [exact Hi|].
  exact (segments_past_the_mask_stay_empty 10 1 _
           [OpSet (KInt 1) "value1"] _ _ 9 []
           ltac:(lia) Hs ltac:(repeat constructor) Hc Hi
           ltac:(vm_compute; discriminate)).
Defined.

Lemma operations_on_a_map_of_no_segment_witness :
  Len (V := string)
    {| segment := []; mutex := []; hash := NewHash 0; segmented := false |}
  = Ok 0.
Proof.
  exact (proj1 (operations_on_a_map_of_no_segment (C := nat) (R := unit) 1
                  _ (KInt 1) 0%nat eq_refl eq_refl)).
Defined.

End MapExtraWitnesses.

(** * The operations on the states of a map *)

(** ** What a state holds and what [Get] finds *)

Module ReachedFacts.
Import Inthash Gomap GomapFacts InthashFacts Segmentedmap SegmentedmapFacts
  DeleteFacts CallFacts ConstructionFacts Invariant InvariantFacts LoopFacts
  ComposeFacts.

#[local] Arguments index : simpl never.
#[local] Arguments Inthash.Get : simpl never.

Section Facts.
Context {V : Type} `{Zero V}.
Implicit Types (s : Map V) (k : Key) (v : V) (h : Z) (seg : Gomap.t V).





(** The entries of a map after a [Delete] *)




End Facts.

End ReachedFacts.

(** ** The operations on a state *)

Module ReachedClaims.
Import Inthash Gomap GomapFacts InthashFacts Segmentedmap SegmentedmapFacts
  DeleteFacts CallFacts ConstructionFacts Invariant InvariantFacts LoopFacts
  ComposeFacts ByGetFacts ReachedFacts.

#[local] Arguments index : simpl never.
#[local] Arguments Inthash.Get : simpl never.

Section Claims.
Context {V : Type} `{Zero V}.
Implicit Types (s : Map V) (k : Key) (v : V).





End Claims.

End ReachedClaims.

(** ** The operations on the map of the tests, and on a NaN key *)

Module ReachedWitnesses.
Import Inthash Gomap Segmentedmap Invariant Fixtures ReachedClaims.
Local Open Scope string_scope.











End ReachedWitnesses.
